(** * GeminiAutoPM: the standalone entry point [src/index.ts]

    A shallow embedding of the command-line bootstrap of GeminiAutoPM and the
    proofs of its lifecycle contract: log-level resolution, the three command
    actions ([pm], [agents], [all]), the start-up failure path and the
    process-wide signal and error handlers.

    Strings are byte strings ([string]); option bags returned by [opts()] are
    finite maps from attribute names to values ([gmap string Value]); effects
    (console output, logger calls, server construction, [process.exit]) are
    recorded in a trace of events, in the order in which the code performs
    them. *)

From Stdlib Require Import ZArith Ascii String List Bool Lia.
From stdpp Require Import gmap strings list.

Open Scope string_scope.
Open Scope list_scope.

(** ** JavaScript strings *)

Module Js.

Definition isUpperAscii (c : ascii) : bool :=
  let n := N_of_ascii c in ((65 <=? n) && (n <=? 90))%N.

(** [String.prototype.toLowerCase] on one character. Only the letters
    [A]..[Z] change; every byte from 128 on (the UTF-8 encoding of a
    character outside ASCII) is kept. JavaScript folds a few characters
    outside ASCII onto ASCII letters (the Kelvin sign onto [k]; the dotted
    capital I onto [i] followed by a combining dot), but never onto a
    spelling of [error], [warn], [info] or [debug], so [parseLogLevel]
    below takes the same branch under either reading. *)
Definition toLowerCaseChar (c : ascii) : ascii :=
  if isUpperAscii c then ascii_of_N (N_of_ascii c + 32) else c.

Fixpoint toLowerCase (s : string) : string :=
  match s with
  | EmptyString => EmptyString
  | String c s' => String (toLowerCaseChar c) (toLowerCase s')
  end.

(** [s.startsWith(p)] *)
Fixpoint startsWith (p s : string) : bool :=
  match p, s with
  | EmptyString, _ => true
  | String a p', String b s' => Ascii.eqb a b && startsWith p' s'
  | String _ _, EmptyString => false
  end.

(** [s.slice(n)] for [0 <= n] *)
Fixpoint slice (n : nat) (s : string) : string :=
  match n, s with
  | O, _ => s
  | S n', String _ s' => slice n' s'
  | S _, EmptyString => EmptyString
  end.

(** [s.indexOf(c)], [None] for [-1] *)
Fixpoint indexOf (c : ascii) (s : string) : option nat :=
  match s with
  | EmptyString => None
  | String a s' => if Ascii.eqb a c then Some O else S <$> indexOf c s'
  end.

(** [s.slice(0, n)] *)
Fixpoint take (n : nat) (s : string) : string :=
  match n, s with
  | S n', String a s' => String a (take n' s')
  | _, _ => EmptyString
  end.

(** [s.includes(t)] *)
Fixpoint includes (t s : string) : bool :=
  startsWith t s ||
  match s with
  | EmptyString => false
  | String _ s' => includes t s'
  end.

End Js.

(** ** Log levels *)

(** Modelled from the spec: the enum [LogLevel] of [utils/logger.js], which
    [index.ts] imports and which is not among the sources. The spec gives its
    four members and their order, [ERROR < WARN < INFO < DEBUG]. *)
Inductive LogLevel := ERROR | WARN | INFO | DEBUG.

#[global] Instance LogLevel_eq_dec : EqDecision LogLevel.
Proof. solve_decision. Defined.

(** [function parseLogLevel(level: string): LogLevel] *)
Definition parseLogLevel (level : string) : LogLevel :=
  let l := Js.toLowerCase level in
  if String.eqb l "error" then ERROR
  else if String.eqb l "warn" then WARN
  else if String.eqb l "info" then INFO
  else if String.eqb l "debug" then DEBUG
  else INFO.

(** The same resolution written from the specification: the input is compared
    with the four level names letter by letter, two letters being the same
    when they are equal or are the two cases of one letter of [A]..[Z]. *)
Module LevelSpec.

Definition isLowerAscii (c : ascii) : bool :=
  let n := N_of_ascii c in ((97 <=? n) && (n <=? 122))%N.

Definition sameLetter (c d : ascii) : bool :=
  Ascii.eqb c d
  || (Js.isUpperAscii c && isLowerAscii d && (N_of_ascii c + 32 =? N_of_ascii d)%N)
  || (isLowerAscii c && Js.isUpperAscii d && (N_of_ascii d + 32 =? N_of_ascii c)%N).

Fixpoint equalIgnoringCase (s t : string) : bool :=
  match s, t with
  | EmptyString, EmptyString => true
  | String c s', String d t' => sameLetter c d && equalIgnoringCase s' t'
  | _, _ => false
  end.

Definition resolve (s : string) : LogLevel :=
  if equalIgnoringCase s "error" then ERROR
  else if equalIgnoringCase s "warn" then WARN
  else if equalIgnoringCase s "info" then INFO
  else if equalIgnoringCase s "debug" then DEBUG
  else INFO.

End LevelSpec.

(** ** Option bags *)

(** A value stored for an option: the string that followed a [<value>] flag,
    or a boolean for a plain flag. *)
Inductive Value := VStr (s : string) | VBool (b : bool).

#[global] Instance Value_eq_dec : EqDecision Value.
Proof. solve_decision. Defined.

(** What [cmd.opts()] returns: a JavaScript object keyed by attribute name.
    Reading a key that is absent gives [undefined], here [None]. *)
Abbreviation OptionValues := (gmap string Value).

(** ** The command-line parser

    [index.ts] declares its options and subcommands with the [commander]
    package and calls [program.parse()]. The package itself is a dependency
    and not part of the sources, so what follows transcribes the parts of its
    documented algorithm ([Command.parseOptions], [Command._parseCommand])
    that these declarations exercise: long flags with a required value
    ([--flag value] and [--flag=value]), plain boolean flags, negated
    [--no-] flags, the [--] terminator, unknown options left for the
    subcommand, the built-in help flags and help command, and the version
    flag. Short flags exist only for help and version, as in the
    declarations. Nothing that the parser prints (help, version, usage
    errors) is recorded, only the exit it ends with. *)

Module Commander.

(** An option as declared by [.option(flags, description, defaultValue)]. *)
Record OptionDecl := mkOption {
  long : string;                 (* the long flag, with its two dashes *)
  required : bool;               (* declared with a [<value>] *)
  defaultValue : option Value
}.

Definition toUpperCaseChar (c : ascii) : ascii :=
  let n := N_of_ascii c in
  if ((97 <=? n) && (n <=? 122))%N then ascii_of_N (n - 32) else c.

(** [camelcase]: [log-level] becomes [logLevel]. Every dash of a declared
    flag is single and followed by a character. *)
Fixpoint camelcase (s : string) : string :=
  match s with
  | EmptyString => EmptyString
  | String c s' =>
      if Ascii.eqb c "-" then
        match s' with
        | EmptyString => String c EmptyString
        | String d s'' => String (toUpperCaseChar d) (camelcase s'')
        end
      else String c (camelcase s')
  end.

(** [option.negate]: the long flag starts with [--no-]. *)
Definition negate (o : OptionDecl) : bool := Js.startsWith "--no-" (long o).

(** [option.name()]: the long flag without its two dashes. *)
Definition name (o : OptionDecl) : string := Js.slice 2 (long o).

(** [option.attributeName()]: the key under which the value is stored. *)
Definition attributeName (o : OptionDecl) : string :=
  camelcase (if negate o then Js.slice 3 (name o) else name o).

(** A command: its name, its options in declaration order, and whether
    [.version(...)] registered the flags [-V, --version]. *)
Record CommandDecl := mkCommand {
  cmdName : string;
  cmdOptions : list OptionDecl;
  cmdVersion : bool
}.

(** Why parsing ended the process instead of calling an action. *)
Inductive Halt := ShowHelp | ShowVersion | UsageError.

Definition exitCode (h : Halt) : Z :=
  match h with
  | ShowHelp | ShowVersion => 0
  | UsageError => 1
  end.

Inductive Found := FoundOption (o : OptionDecl) | FoundVersion.

(** [_findOption(arg)]: the first declared option whose flag is [arg]. *)
Definition findOption (c : CommandDecl) (arg : string) : option Found :=
  if cmdVersion c && (String.eqb arg "-V" || String.eqb arg "--version")
  then Some FoundVersion
  else FoundOption <$> List.find (fun o => String.eqb (long o) arg) (cmdOptions c).

(** [addOption]: the value an option has before the command line is read
    is its declared default; a negated flag defaults to [true] unless its
    positive twin was declared before it. *)
Definition declare (c : CommandDecl) (st : OptionValues * list OptionDecl)
    (o : OptionDecl) : OptionValues * list OptionDecl :=
  let earlier := mkCommand (cmdName c) (snd st) (cmdVersion c) in
  let vals :=
    if negate o then
      match findOption earlier ("--" +:+ Js.slice 5 (long o)) with
      | Some _ => fst st
      | None => <[attributeName o := default (VBool true) (defaultValue o)]> (fst st)
      end
    else
      match defaultValue o with
      | Some v => <[attributeName o := v]> (fst st)
      | None => fst st
      end in
  (vals, snd st ++ [o]).

Definition defaults (c : CommandDecl) : OptionValues :=
  fst (fold_left (declare c) (cmdOptions c) (∅, [])).

(** The option listener: a flag with a value stores the string; a plain
    flag stores [true], a negated one [false]. *)
Definition handleOptionValue (o : OptionDecl) (val : option string) (vals : OptionValues) : OptionValues :=
  match val with
  | Some v => <[attributeName o := VStr v]> vals
  | None => <[attributeName o := VBool (negb (negate o))]> vals
  end.

(** [maybeOption(arg)] *)
Definition maybeOption (arg : string) : bool :=
  match arg with
  | String c (String _ _) => Ascii.eqb c "-"
  | _ => false
  end.

(** A single dash followed by two or more characters, the first of which is
    not a dash; gives the short flag made of the dash and that character. *)
Definition comboFlag (arg : string) : option string :=
  match arg with
  | String c (String d (String _ _)) =>
      if Ascii.eqb c "-" && negb (Ascii.eqb d "-")
      then Some (String c (String d EmptyString)) else None
  | _ => None
  end.

(** [/^--[^=]+=/.test(arg)], with the flag before the first [=] and the
    value after it. *)
Definition flagWithValue (arg : string) : option (string * string) :=
  if Js.startsWith "--" arg then
    match Js.indexOf "=" arg with
    | Some i => if (3 <=? i)%nat then Some (Js.take i arg, Js.slice (S i) arg) else None
    | None => None
    end
  else None.

Record ParseState := mkState {
  values : OptionValues;
  operands : list string;
  unknown : list string;
  toUnknown : bool            (* [dest === unknown] *)
}.

Definition store (f : OptionValues -> OptionValues) (st : ParseState) : ParseState :=
  mkState (f (values st)) (operands st) (unknown st) (toUnknown st).

(** [dest.push(...args)], after [dest = unknown] when [arg] looks like an
    option. *)
Definition push (asOption : bool) (args : list string) (st : ParseState) : ParseState :=
  if toUnknown st || asOption
  then mkState (values st) (operands st) (unknown st ++ args) true
  else mkState (values st) (operands st ++ args) (unknown st) false.

(** [parseOptions(argv)], one turn of its loop per argument. *)
Fixpoint parseOptions (c : CommandDecl) (args : list string) (st : ParseState) : Halt + ParseState :=
  match args with
  | [] => inr st
  | arg :: rest =>
      let unrecognised :=
        parseOptions c rest (push (maybeOption arg) [arg] st) in
      let withValue :=
        match flagWithValue arg with
        | Some (flag, v) =>
            match findOption c flag with
            | Some (FoundOption o) =>
                if required o
                then parseOptions c rest (store (handleOptionValue o (Some v)) st)
                else unrecognised
            | _ => unrecognised
            end
        | None => unrecognised
        end in
      let combo :=
        match comboFlag arg with
        | Some flag =>
            match findOption c flag with
            | Some FoundVersion => inl ShowVersion
            | _ => withValue
            end
        | None => withValue
        end in
      if String.eqb arg "--" then
        inr (if toUnknown st then push false (arg :: rest) st else push false rest st)
      else if maybeOption arg then
        match findOption c arg with
        | Some (FoundOption o) =>
            if required o then
              match rest with
              | [] => inl UsageError            (* optionMissingArgument *)
              | v :: rest' =>
                  parseOptions c rest' (store (handleOptionValue o (Some v)) st)
              end
            else parseOptions c rest (store (handleOptionValue o None) st)
        | Some FoundVersion => inl ShowVersion
        | None => combo
        end
      else combo
  end.

(** [outputHelpIfRequested(args)]: one of the help flags is among [args]. *)
Definition helpRequested (args : list string) : bool :=
  existsb (fun a => String.eqb a "-h" || String.eqb a "--help") args.

End Commander.

(** ** The declared command line *)

(** The three subcommands that carry an action. *)
Inductive Cmd := PM | Agents | All.

#[global] Instance Cmd_eq_dec : EqDecision Cmd.
Proof. solve_decision. Defined.

Module Cli.
Import Commander.

(** [program.name('gemini-autopm').version('1.0.0')
       .option('--log-level <level>', ..., 'info')
       .option('--enable-context7', ..., true)] *)
Definition program : CommandDecl :=
  mkCommand "gemini-autopm"
    [ mkOption "--log-level" true (Some (VStr "info"));
      mkOption "--enable-context7" false (Some (VBool true)) ]
    true.

(** [program.command('pm').option('--port <port>', ..., '8080')] *)
Definition pm : CommandDecl :=
  mkCommand "pm" [ mkOption "--port" true (Some (VStr "8080")) ] false.

(** [program.command('agents').option('--port <port>', ..., '8081')] *)
Definition agents : CommandDecl :=
  mkCommand "agents" [ mkOption "--port" true (Some (VStr "8081")) ] false.

(** [program.command('all').option('--pm-port <port>', ..., '8080')
       .option('--agents-port <port>', ..., '8081')] *)
Definition all : CommandDecl :=
  mkCommand "all"
    [ mkOption "--pm-port" true (Some (VStr "8080"));
      mkOption "--agents-port" true (Some (VStr "8081")) ]
    false.

Definition decl (c : Cmd) : CommandDecl :=
  match c with
  | PM => pm
  | Agents => agents
  | All => all
  end.

(** [_findCommand(name)] among the subcommands of [program]. *)
Definition findCommand (name : string) : option Cmd :=
  List.find (fun c => String.eqb (cmdName (decl c)) name) [PM; Agents; All].

(** The outcome of [program.parse()]: an action is called with its own
    options and those of the parent, or the process ends. *)
Inductive Parsed :=
| Dispatch (c : Cmd) (options globalOptions : OptionValues)
| Halted (h : Halt).

Section Parse.

(** Whether operands that no command declared are tolerated: the default of
    [allowExcessArguments] differs between major versions of the package. *)
Variable allowExcessArguments : bool.

(** [_parseCommand(operands, unknown)] on a subcommand: the options the
    parent did not recognise are parsed against the subcommand's own. *)
Definition parseSubcommand (c : Cmd) (globalOptions : OptionValues)
    (ops unk : list string) : Parsed :=
  match parseOptions (decl c) unk (mkState (defaults (decl c)) [] [] false) with
  | inl h => Halted h
  | inr st =>
      if helpRequested (unknown st) then Halted ShowHelp
      else
        match unknown st with
        | _ :: _ => Halted UsageError                       (* unknownOption *)
        | [] =>
            match ops ++ operands st with
            | _ :: _ =>
                if allowExcessArguments
                then Dispatch c (values st) globalOptions
                else Halted UsageError                      (* excess arguments *)
            | [] => Dispatch c (values st) globalOptions
            end
        end
  end.

(** [program.parse()] on the user arguments ([process.argv] without the
    interpreter and the script). *)
Definition parse (argv : list string) : Parsed :=
  match parseOptions program argv (mkState (defaults program) [] [] false) with
  | inl h => Halted h
  | inr st =>
      match operands st with
      | op :: ops =>
          match findCommand op with
          | Some c => parseSubcommand c (values st) ops (unknown st)
          | None =>
              if String.eqb op "help" then
                (* the implicit help command *)
                match ops with
                | [] => Halted ShowHelp
                | sub :: _ =>
                    match findCommand sub with
                    | Some _ => Halted ShowHelp
                    | None => Halted UsageError
                    end
                end
              else if helpRequested (unknown st) then Halted ShowHelp
              else Halted UsageError                        (* unknownCommand *)
          end
      | [] =>
          match unknown st with
          | [] => Halted UsageError                         (* help, as an error *)
          | _ :: _ =>
              if helpRequested (unknown st) then Halted ShowHelp
              else Halted UsageError                        (* unknownOption *)
          end
      end
  end.

End Parse.

End Cli.

(** ** Collaborators and observable events *)

(** A thrown value or rejection reason. *)
Record JsError := mkError { errName : string; errMessage : string }.

#[global] Instance JsError_eq_dec : EqDecision JsError.
Proof. solve_decision. Defined.

Module Logger.

(** The argument of [new Logger({ name, level })]. *)
Record Config := mk { name : string; level : LogLevel }.

End Logger.

Module Server.

(** The two server classes, [PMServer] and [AgentsServer]. *)
Inductive Kind := PMServer | AgentsServer.

(** The argument of [new PMServer({...})] and [new AgentsServer({...})].
    [enableContext7] is whatever [globalOptions.enableContext7] holds,
    [None] standing for [undefined]. *)
Record Config := mk {
  name : string;
  version : string;
  logLevel : LogLevel;
  enableContext7 : option Value
}.

End Server.

#[global] Instance LoggerConfig_eq_dec : EqDecision Logger.Config.
Proof. solve_decision. Defined.

#[global] Instance ServerKind_eq_dec : EqDecision Server.Kind.
Proof. solve_decision. Defined.

#[global] Instance ServerConfig_eq_dec : EqDecision Server.Config.
Proof. solve_decision. Defined.

(** One argument of a [console.error(...)] call. *)
Inductive ConsoleArg :=
| CStr (s : string)
| CErr (e : JsError)
| CPromise.                                   (* the rejected promise object *)

(** What the process does to the outside, one event per call. The classes
    [Logger], [PMServer] and [AgentsServer] live in modules that are not
    among the sources: a call into them is recorded with its arguments, and
    what the callee does with them is not modelled. *)
Inductive Event :=
| ConsoleError (args : list ConsoleArg)                     (* console.error(...) *)
| NewLogger (cfg : Logger.Config)                           (* new Logger(cfg) *)
| Log (logger : Logger.Config) (lvl : LogLevel)
      (message : string) (error : option JsError)           (* logger.info / logger.error *)
| NewServer (k : Server.Kind) (cfg : Server.Config)         (* new PMServer(cfg) / new AgentsServer(cfg) *)
| Start (k : Server.Kind)                                   (* server.start() *)
| Exit (code : Z).                                          (* process.exit(code) *)

(** How the absent server classes answer a construction: [None] when the
    constructor returns, [Some e] when it throws [e]. *)
Record World := mkWorld {
  construct : Server.Kind -> Server.Config -> option JsError
}.

(** ** Code of an asynchronous function *)

(** How the promise returned by [server.start()] settles. *)
Inductive Settled := Resolved | Rejected (reason : JsError).

(** The body of an action, as the sequence of its effects. [Await] suspends
    the function on [await server.start()] until the promise settles. *)
Inductive Prog :=
| Return
| Emit (e : Event) (k : Prog)
| Await (k : Settled -> Prog)
| ProcessExit (code : Z)
| Throw (e : JsError).

(** [p; q] *)
Fixpoint andThen (p q : Prog) : Prog :=
  match p with
  | Return => q
  | Emit e k => Emit e (andThen k q)
  | Await k => Await (fun r => andThen (k r) q)
  | ProcessExit c => ProcessExit c
  | Throw e => Throw e
  end.

(** [try { body } catch (error) { handler }] *)
Fixpoint tryCatch (body : Prog) (handler : JsError -> Prog) : Prog :=
  match body with
  | Return => Return
  | Emit e k => Emit e (tryCatch k handler)
  | Await k => Await (fun r => tryCatch (k r) handler)
  | ProcessExit c => ProcessExit c
  | Throw e => handler e
  end.

Declare Scope prog_scope.
Delimit Scope prog_scope with prog.
Bind Scope prog_scope with Prog.
Notation "p ;; q" := (andThen p q)
  (at level 100, q at level 200, right associativity) : prog_scope.

Definition consoleError (args : list ConsoleArg) : Prog := Emit (ConsoleError args) Return.
Definition newLogger (cfg : Logger.Config) : Prog := Emit (NewLogger cfg) Return.
Definition loggerInfo (logger : Logger.Config) (message : string) : Prog :=
  Emit (Log logger INFO message None) Return.
Definition loggerError (logger : Logger.Config) (message : string) (e : JsError) : Prog :=
  Emit (Log logger ERROR message (Some e)) Return.
Definition processExit (code : Z) : Prog := ProcessExit code.

(** [new PMServer(cfg)] or [new AgentsServer(cfg)] *)
Definition newServer (w : World) (k : Server.Kind) (cfg : Server.Config) : Prog :=
  Emit (NewServer k cfg)
    match construct w k cfg with
    | None => Return
    | Some e => Throw e
    end.

(** [await server.start()] *)
Definition awaitStart (k : Server.Kind) : Prog :=
  Emit (Start k)
    (Await (fun r => match r with Resolved => Return | Rejected e => Throw e end)).

(** The [TypeError] that [level.toLowerCase()] throws when [level] is not a
    string: [undefined] has no properties to read, and a boolean has no
    method of that name. *)
Definition typeError (v : option Value) : JsError :=
  mkError "TypeError"
    match v with
    | None => "Cannot read properties of undefined (reading 'toLowerCase')"
    | Some _ => "level.toLowerCase is not a function"
    end.

(** [parseLogLevel(globalOptions.logLevel)]: the property read, then the
    call. *)
Definition callParseLogLevel (v : option Value) (k : LogLevel -> Prog) : Prog :=
  match v with
  | Some (VStr s) => k (parseLogLevel s)
  | _ => Throw (typeError v)
  end.

(** ** The three command actions *)

Section Actions.

Variable w : World.

Open Scope prog_scope.

(** [program.command('pm')....action(async (options, cmd) => {...})], with
    [globalOptions = cmd.parent.opts()]. *)
Definition pmAction (options globalOptions : OptionValues) : Prog :=
  consoleError [CStr "CLI: Starting PM server command..."] ;;
  callParseLogLevel (globalOptions !! "logLevel") (fun lvl =>
  let logger := Logger.mk "AutoPM-PM" lvl in
  newLogger logger ;;
  tryCatch
    (consoleError [CStr "CLI: Created logger"] ;;
     loggerInfo logger "Starting Project Management MCP Server..." ;;
     consoleError [CStr "CLI: Creating PMServer..."] ;;
     callParseLogLevel (globalOptions !! "logLevel") (fun lvl' =>
     newServer w Server.PMServer
       (Server.mk "autopm-pm" "1.0.0" lvl' (globalOptions !! "enableContext7")) ;;
     consoleError [CStr "CLI: PMServer created successfully"] ;;
     awaitStart Server.PMServer ;;
     loggerInfo logger "Project Management server started successfully"))
    (fun e =>
     loggerError logger "Failed to start PM server:" e ;;
     processExit 1)).

(** [program.command('agents')....action(async (options, cmd) => {...})] *)
Definition agentsAction (options globalOptions : OptionValues) : Prog :=
  callParseLogLevel (globalOptions !! "logLevel") (fun lvl =>
  let logger := Logger.mk "AutoPM-Agents" lvl in
  newLogger logger ;;
  tryCatch
    (loggerInfo logger "Starting Agents MCP Server..." ;;
     callParseLogLevel (globalOptions !! "logLevel") (fun lvl' =>
     newServer w Server.AgentsServer
       (Server.mk "autopm-agents" "1.0.0" lvl' (globalOptions !! "enableContext7")) ;;
     awaitStart Server.AgentsServer ;;
     loggerInfo logger "Agents server started successfully"))
    (fun e =>
     loggerError logger "Failed to start Agents server:" e ;;
     processExit 1)).

(** [program.command('all')....action(async (options, cmd) => {...})]: only
    the PM server is built, as the comment in the source says. *)
Definition allAction (options globalOptions : OptionValues) : Prog :=
  callParseLogLevel (globalOptions !! "logLevel") (fun lvl =>
  let logger := Logger.mk "AutoPM-All" lvl in
  newLogger logger ;;
  loggerInfo logger "Starting both PM and Agents MCP servers..." ;;
  tryCatch
    (callParseLogLevel (globalOptions !! "logLevel") (fun lvl' =>
     newServer w Server.PMServer
       (Server.mk "autopm-pm" "1.0.0" lvl' (globalOptions !! "enableContext7")) ;;
     awaitStart Server.PMServer ;;
     loggerInfo logger "PM server started successfully (Agents tools available within PM server)"))
    (fun e =>
     loggerError logger "Failed to start servers:" e ;;
     processExit 1)).

Definition action (c : Cmd) : OptionValues -> OptionValues -> Prog :=
  match c with
  | PM => pmAction
  | Agents => agentsAction
  | All => allAction
  end.

End Actions.

(** ** The process *)

(** The process-wide handlers. Each of the four has the same shape: one
    [console.error(...)] and then [process.exit(status)]. *)
Record Handler := mkHandler { report : list ConsoleArg; status : Z }.

Inductive Signal := SIGINT | SIGTERM.

Definition newline : string := String "010" EmptyString.

Definition signalName (s : Signal) : string :=
  match s with
  | SIGINT => "SIGINT"
  | SIGTERM => "SIGTERM"
  end.

(** [process.on('SIGINT', ...)] and [process.on('SIGTERM', ...)] *)
Definition onSignal (s : Signal) : Handler :=
  match s with
  | SIGINT =>
      mkHandler [CStr (newline +:+ "Received SIGINT, shutting down gracefully...")] 0
  | SIGTERM =>
      mkHandler [CStr (newline +:+ "Received SIGTERM, shutting down gracefully...")] 0
  end.

(** [process.on('uncaughtException', (error) => ...)] *)
Definition onUncaughtException (e : JsError) : Handler :=
  mkHandler [CStr "Uncaught Exception:"; CErr e] 1.

(** [process.on('unhandledRejection', (reason, promise) => ...)] *)
Definition onUnhandledRejection (reason : JsError) : Handler :=
  mkHandler [CStr "Unhandled Rejection at:"; CPromise; CStr "reason:"; CErr reason] 1.

(** Where the process stands: suspended in an action on
    [await server.start()], alive with no action pending, or gone. *)
Inductive Phase :=
| Starting (k : Settled -> Prog)
| Running
| Exited (code : Z).

Record Proc := mkProc { phase : Phase; trace : list Event }.

(** Where a piece of code stops. *)
Inductive Pause :=
| Returned
| Awaiting (k : Settled -> Prog)
| Exiting (code : Z)
| Thrown (e : JsError).

(** Runs code up to its next pause, appending its events to the trace. *)
Fixpoint exec (p : Prog) (tr : list Event) : list Event * Pause :=
  match p with
  | Return => (tr, Returned)
  | Emit e k => exec k (tr ++ [e])
  | Await k => (tr, Awaiting k)
  | ProcessExit c => (tr ++ [Exit c], Exiting c)
  | Throw e => (tr, Thrown e)
  end.

(** A handler runs to its [process.exit]. *)
Definition fire (h : Handler) (tr : list Event) : Proc :=
  mkProc (Exited (status h)) (tr ++ [ConsoleError (report h); Exit (status h)]).

(** The state after an action has run to a pause. An error that leaves the
    action rejects the promise the action returned; [program.parse()] does
    not look at that promise, so the rejection is unhandled and goes to the
    [unhandledRejection] handler. *)
Definition settle (r : list Event * Pause) : Proc :=
  match r with
  | (tr, Returned) => mkProc Running tr
  | (tr, Awaiting k) => mkProc (Starting k) tr
  | (tr, Exiting c) => mkProc (Exited c) tr
  | (tr, Thrown e) => fire (onUnhandledRejection e) tr
  end.

(** What can happen to a live process. *)
Inductive Input :=
| StartSettled (r : Settled)            (* the promise of [server.start()] settles *)
| Received (s : Signal)
| UncaughtException (e : JsError)
| UnhandledRejection (reason : JsError).

(** The handlers are registered at module scope, before [program.parse()],
    so they are in place in every phase. *)
Definition step (p : Proc) (i : Input) : Proc :=
  match phase p with
  | Exited _ => p
  | ph =>
      match i with
      | Received s => fire (onSignal s) (trace p)
      | UncaughtException e => fire (onUncaughtException e) (trace p)
      | UnhandledRejection e => fire (onUnhandledRejection e) (trace p)
      | StartSettled r =>
          match ph with
          | Starting k => settle (exec (k r) (trace p))
          | _ => p
          end
      end
  end.

Definition run (p : Proc) (inputs : list Input) : Proc := fold_left step inputs p.

(** The action of a dispatched command, run to its first pause. *)
Definition launch (w : World) (c : Cmd) (options globalOptions : OptionValues) : Proc :=
  settle (exec (action w c options globalOptions) []).

(** The whole script: the handlers are registered, then [program.parse()]
    either ends the process or calls an action. *)
Definition main (allowExcessArguments : bool) (w : World) (argv : list string) : Proc :=
  match Cli.parse allowExcessArguments argv with
  | Cli.Halted h => mkProc (Exited (Commander.exitCode h)) [Exit (Commander.exitCode h)]
  | Cli.Dispatch c options globalOptions => launch w c options globalOptions
  end.

(** ** Reading a trace *)

(** The constructor calls, in order, with the class and the configuration. *)
Definition constructions (tr : list Event) : list (Server.Kind * Server.Config) :=
  omap (fun ev => match ev with NewServer k cfg => Some (k, cfg) | _ => None end) tr.

(** The calls of [start()]. *)
Definition starts (tr : list Event) : list Server.Kind :=
  omap (fun ev => match ev with Start k => Some k | _ => None end) tr.

(** The logger entries of one level: message and attached error. *)
Definition entries (lvl : LogLevel) (tr : list Event) : list (string * option JsError) :=
  omap (fun ev =>
          match ev with
          | Log _ l m err => if decide (l = lvl) then Some (m, err) else None
          | _ => None
          end) tr.

(** The calls of [process.exit]. *)
Definition exits (tr : list Event) : list Z :=
  omap (fun ev => match ev with Exit c => Some c | _ => None end) tr.

(** How each constructor call of a trace ended in world [w]. *)
Definition constructorOutcomes (w : World) (tr : list Event) : list (option JsError) :=
  map (fun kc => construct w (fst kc) (snd kc)) (constructions tr).

Definition exitStatus (p : Proc) : option Z :=
  match phase p with
  | Exited c => Some c
  | _ => None
  end.

Definition alive (p : Proc) : Prop := exitStatus p = None.

Definition pending (p : Proc) : bool :=
  match phase p with
  | Starting _ => true
  | _ => false
  end.

(** The class and the name each command gives its one server. *)
Definition serverKind (c : Cmd) : Server.Kind :=
  match c with
  | PM | All => Server.PMServer
  | Agents => Server.AgentsServer
  end.

Definition serverName (c : Cmd) : string :=
  match c with
  | PM | All => "autopm-pm"
  | Agents => "autopm-agents"
  end.

(** The configuration each action hands to its constructor, given the
    string under the parent's [logLevel] and whatever the parent holds under
    [enableContext7]. *)
Definition serverConfig (c : Cmd) (level : string) (context7 : option Value) : Server.Config :=
  Server.mk (serverName c) "1.0.0" (parseLogLevel level) context7.

(** A start-up failure with error [e] of command [c] called with the parent
    options [g] in world [w], and the state it leaves behind the state [p0]
    in which the action paused: either the constructor of the command's
    server throws [e] on the command's configuration, or it returns and the
    promise of [start()] is rejected with [e]. *)
Inductive StartupFailure (w : World) (c : Cmd) (g : OptionValues)
    (p0 : Proc) (e : JsError) : Proc -> Prop :=
| ConstructorThrows (s : string) :
    g !! "logLevel" = Some (VStr s) ->
    construct w (serverKind c) (serverConfig c s (g !! "enableContext7")) = Some e ->
    StartupFailure w c g p0 e p0
| StartRejects (s : string) :
    g !! "logLevel" = Some (VStr s) ->
    construct w (serverKind c) (serverConfig c s (g !! "enableContext7")) = None ->
    StartupFailure w c g p0 e (step p0 (StartSettled (Rejected e))).

(** An event without the logger's name and the text of its message. *)
Definition eraseText (ev : Event) : Event :=
  match ev with
  | NewLogger cfg => NewLogger (Logger.mk EmptyString (Logger.level cfg))
  | Log logger lvl _ err =>
      Log (Logger.mk EmptyString (Logger.level logger)) lvl EmptyString err
  | _ => ev
  end.

(** Two traces that differ only in logger names and message texts. *)
Definition sameUpToText (t1 t2 : list Event) : Prop :=
  map eraseText t1 = map eraseText t2.

(** The diagnostics that the [pm] action writes with [console.error]:
    single-string lines that start with [CLI: ]. *)
Definition isCliDiagnostic (ev : Event) : bool :=
  match ev with
  | ConsoleError [CStr s] => Js.startsWith "CLI: " s
  | _ => false
  end.

Definition withoutCliDiagnostics (tr : list Event) : list Event :=
  List.filter (fun ev => negb (isCliDiagnostic ev)) tr.

(** Every character, for proofs by enumeration. *)
Definition allAscii : list ascii := map ascii_of_nat (seq 0 256).

(** The world in which every constructor returns, and one in which every
    constructor throws. *)
Definition calmWorld : World := mkWorld (fun _ _ => None).
Definition boom : JsError := mkError "Error" "listen EADDRINUSE".
Definition brokenWorld : World := mkWorld (fun _ _ => Some boom).

(** What the declarations of [program] promise about the parent's options:
    [logLevel] holds a string and [enableContext7] holds [true]. *)
Definition GlobalsOk (g : OptionValues) : Prop :=
  (exists s, g !! "logLevel" = Some (VStr s))
  /\ g !! "enableContext7" = Some (VBool true).

(** What relates a process started by [pm] to one started by [all] once no
    action is suspended. *)
Definition alike (p q : Proc) : Prop :=
  pending p = false
  /\ phase p = phase q
  /\ constructions (trace p) = constructions (trace q)
  /\ sameUpToText (withoutCliDiagnostics (trace p)) (trace q)
  /\ withoutCliDiagnostics (trace q) = trace q.

(** ** More ways to read a trace *)

(** The loggers built with [new Logger(...)], and the logger behind each
    [logger.info] or [logger.error] call. *)
Definition loggers (tr : list Event) : list Logger.Config :=
  omap (fun ev => match ev with NewLogger cfg => Some cfg | _ => None end) tr.

Definition logUsers (tr : list Event) : list Logger.Config :=
  omap (fun ev => match ev with Log logger _ _ _ => Some logger | _ => None end) tr.

(** The name each action gives its logger. *)
Definition loggerName (c : Cmd) : string :=
  match c with
  | PM => "AutoPM-PM"
  | Agents => "AutoPM-Agents"
  | All => "AutoPM-All"
  end.

(** The steps of a start-up, without their arguments. *)
Inductive Milestone :=
| LoggerCreated
| ServerConstructed (k : Server.Kind)
| StartCalled (k : Server.Kind)
| ProcessExited (code : Z).

Definition milestones (tr : list Event) : list Milestone :=
  omap (fun ev =>
          match ev with
          | NewLogger _ => Some LoggerCreated
          | NewServer k _ => Some (ServerConstructed k)
          | Start k => Some (StartCalled k)
          | Exit c => Some (ProcessExited c)
          | _ => None
          end) tr.

(** The handler an input sets off, if it sets one off. *)
Definition fatalHandler (i : Input) : option Handler :=
  match i with
  | Received s => Some (onSignal s)
  | UncaughtException e => Some (onUncaughtException e)
  | UnhandledRejection e => Some (onUnhandledRejection e)
  | StartSettled _ => None
  end.

Definition Fatal (h : Handler) (inputs : list Input) : Prop :=
  exists i, In i inputs /\ fatalHandler i = Some h.

(** An argument names the long flag [flag]: it is the flag itself, or the
    flag followed by [=] and a value. *)
Definition mentions (flag arg : string) : bool :=
  String.eqb arg flag || Js.startsWith (flag +:+ "=") arg.

(** The lines written with [console.error]. *)
Definition consoleLines (tr : list Event) : list (list ConsoleArg) :=
  omap (fun ev => match ev with ConsoleError args => Some args | _ => None end) tr.

(** * Properties *)

(** ** Log-level resolution *)

Lemma allAscii_complete (c : ascii) : In c allAscii.
Proof.
  unfold allAscii. rewrite <- (ascii_nat_embedding c).
  apply in_map, in_seq. pose proof (nat_ascii_bounded c). lia.
Qed.

Lemma sameLetter_table :
  forallb (fun c => forallb (fun d =>
    Bool.eqb (LevelSpec.sameLetter c d)
             (Ascii.eqb (Js.toLowerCaseChar c) (Js.toLowerCaseChar d))) allAscii) allAscii = true.
Proof. vm_compute. reflexivity. Qed.

Lemma sameLetter_toLowerCaseChar (c d : ascii) :
  LevelSpec.sameLetter c d = Ascii.eqb (Js.toLowerCaseChar c) (Js.toLowerCaseChar d).
Proof.
  pose proof sameLetter_table as H.
  rewrite forallb_forall in H. specialize (H c (allAscii_complete c)).
  rewrite forallb_forall in H. specialize (H d (allAscii_complete d)).
  apply Bool.eqb_prop in H. exact H.
Qed.

Lemma equalIgnoringCase_toLowerCase (s t : string) :
  LevelSpec.equalIgnoringCase s t = String.eqb (Js.toLowerCase s) (Js.toLowerCase t).
Proof.
  revert t. induction s as [|c s IH]; intros [|d t]; simpl; try reflexivity.
  rewrite sameLetter_toLowerCaseChar, IH.
  destruct (Ascii.eqb _ _); reflexivity.
Qed.

(** C3. For every input string, [parseLogLevel] returns the level whose name
    the string spells when letter case is ignored ([error], [warn], [info],
    [debug]), and [INFO] for every other string; it is a total function, so
    no input makes it fail. *)
Theorem parseLogLevel_resolves (s : string) :
  parseLogLevel s = LevelSpec.resolve s.
Proof.
  unfold parseLogLevel, LevelSpec.resolve.
  rewrite !equalIgnoringCase_toLowerCase. reflexivity.
Qed.

Example parseLogLevel_examples :
  map parseLogLevel ["error"; "WARN"; "Info"; "dEbUg"; "verbose"; EmptyString; "debug "]
  = [ERROR; WARN; INFO; DEBUG; INFO; INFO; INFO].
Proof. reflexivity. Qed.

(** ** The parser keeps what the declarations promise *)

Section ParseInvariant.
Import Commander.

Variable c : CommandDecl.
Variable I : OptionValues -> Prop.

Hypothesis I_value : forall o v vals,
  In o (cmdOptions c) -> required o = true ->
  I vals -> I (handleOptionValue o (Some v) vals).
Hypothesis I_flag : forall o vals,
  In o (cmdOptions c) -> required o = false ->
  I vals -> I (handleOptionValue o None vals).

Lemma findOption_In (arg : string) (o : OptionDecl) :
  findOption c arg = Some (FoundOption o) -> In o (cmdOptions c).
Proof.
  unfold findOption. destruct (_ && _); [discriminate|].
  destruct (List.find _ _) as [o'|] eqn:Hfind; simpl; [|discriminate].
  intros [= <-]. apply find_some in Hfind. tauto.
Qed.

Lemma values_push (b : bool) (args : list string) (st : ParseState) :
  values (push b args st) = values st.
Proof. unfold push. destruct (_ || _); reflexivity. Qed.

(** Whatever the arguments, an invariant of the option listeners holds of
    the values [parseOptions] returns. *)
Lemma parseOptions_values (args : list string) :
  forall st st', I (values st) -> parseOptions c args st = inr st' -> I (values st').
Proof.
  induction args as [args IH] using (induction_ltof1 _ (@length string)).
  unfold ltof in IH.
  destruct args as [|arg rest]; intros st st' HI H.
  - injection H as <-. exact HI.
  - cbn [parseOptions] in H.
    repeat case_match; simplify_eq;
      try (rewrite ?values_push; exact HI);
      try (eapply IH; [| |eassumption]; [simpl; lia|]; simpl;
           rewrite ?values_push;
           eauto using findOption_In).
Qed.

End ParseInvariant.

Lemma program_defaults :
  Commander.defaults Cli.program = <["enableContext7" := VBool true]> (<["logLevel" := VStr "info"]> ∅).
Proof. reflexivity. Qed.

Lemma parse_globals ae argv c o g :
  Cli.parse ae argv = Cli.Dispatch c o g -> GlobalsOk g.
Proof.
  unfold Cli.parse.
  destruct (Commander.parseOptions Cli.program argv _) as [h|st] eqn:Hparse; [discriminate|].
  intros H.
  assert (GlobalsOk (Commander.values st)) as Hok.
  { eapply (parseOptions_values Cli.program GlobalsOk); [| | |exact Hparse].
    - intros opt v vals [<-|[<-|[]]] Hreq [[s Hs] Hc]; try discriminate.
      split; [exists v; apply lookup_insert_eq|].
      cbn. rewrite lookup_insert_ne; [exact Hc|discriminate].
    - intros opt vals [<-|[<-|[]]] Hreq [[s Hs] Hc]; try discriminate.
      split; [exists s; cbn; rewrite lookup_insert_ne; [exact Hs|discriminate]|].
      apply lookup_insert_eq.
    - simpl. rewrite program_defaults. split; [exists "info"|]; reflexivity. }
  unfold Cli.parseSubcommand in H.
  repeat case_match; simplify_eq; exact Hok.
Qed.

Example parse_examples :
  map (fun argv =>
         match Cli.parse false argv with
         | Cli.Dispatch c _ _ => inl c
         | Cli.Halted h => inr h
         end)
      [ ["pm"]; ["agents"; "--port=1"]; ["--log-level"; "warn"; "all"];
        ["pm"; "--no-enable-context7"]; ["pm"; "--enable-context7=false"];
        ["pm"; "--port"]; ["-V"]; ["pm"; "--help"]; ["help"]; []; ["serve"] ]
  = [ inl PM; inl Agents; inl All;
      inr Commander.UsageError; inr Commander.UsageError;
      inr Commander.UsageError; inr Commander.ShowVersion;
      inr Commander.ShowHelp; inr Commander.ShowHelp;
      inr Commander.UsageError; inr Commander.UsageError ].
Proof. reflexivity. Qed.

Example attribute_names :
  map Commander.attributeName
      (Commander.cmdOptions Cli.program ++ Commander.cmdOptions Cli.all)
  = ["logLevel"; "enableContext7"; "pmPort"; "agentsPort"].
Proof. reflexivity. Qed.

Arguments parseLogLevel : simpl never.

Lemma constructions_app (t1 t2 : list Event) :
  constructions (t1 ++ t2) = constructions t1 ++ constructions t2.
Proof. apply omap_app. Qed.

Lemma starts_app (t1 t2 : list Event) : starts (t1 ++ t2) = starts t1 ++ starts t2.
Proof. apply omap_app. Qed.

Lemma exits_app (t1 t2 : list Event) : exits (t1 ++ t2) = exits t1 ++ exits t2.
Proof. apply omap_app. Qed.


(** Once no action is suspended, nothing the process does touches a server. *)
Lemma step_idle (p : Proc) (i : Input) :
  pending p = false ->
  pending (step p i) = false
  /\ constructions (trace (step p i)) = constructions (trace p)
  /\ starts (trace (step p i)) = starts (trace p).
Proof.
  destruct p as [[k| |c] tr]; cbn; [discriminate| |auto].
  intros _. destruct i as [r|s|e|e]; cbn; auto;
    rewrite constructions_app, starts_app; cbn; rewrite !app_nil_r; auto.
Qed.

Lemma run_cons (p : Proc) (i : Input) (inputs : list Input) :
  run p (i :: inputs) = run (step p i) inputs.
Proof. reflexivity. Qed.

Lemma run_idle (inputs : list Input) : forall p,
  pending p = false ->
  pending (run p inputs) = false
  /\ constructions (trace (run p inputs)) = constructions (trace p)
  /\ starts (trace (run p inputs)) = starts (trace p).
Proof.
  induction inputs as [|i inputs IH]; intros p Hp; [auto|].
  destruct (step_idle p i Hp) as (Hp' & Hc & Hs).
  destruct (IH (step p i) Hp') as (? & ? & ?).
  rewrite run_cons. repeat split; congruence.
Qed.

Ltac launch_cases c Hs w :=
  destruct c;
  unfold launch, action, pmAction, agentsAction, allAction, callParseLogLevel;
  rewrite Hs;
  cbn [andThen tryCatch consoleError newLogger loggerInfo loggerError
       processExit newServer awaitStart exec settle app];
  destruct (construct w _ _) as [?e|] eqn:?Hctor;
  cbn [andThen tryCatch consoleError newLogger loggerInfo loggerError
       processExit exec settle app fire report status onUnhandledRejection].

Ltac first_input i :=
  destruct i as [[|?e]|?sg|?e|?e];
  cbn [step phase trace settle exec fire andThen tryCatch loggerInfo app
       report status onSignal onUncaughtException onUnhandledRejection].

Ltac idle_run inputs :=
  match goal with
  | |- context [run ?p inputs] =>
      let H1 := fresh in let H2 := fresh in let H3 := fresh in
      destruct (run_idle inputs p eq_refl) as (H1 & H2 & H3);
      rewrite ?H2, ?H3; clear H1 H2 H3
  end.

Lemma launch_constructions w c o g s inputs :
  g !! "logLevel" = Some (VStr s) ->
  constructions (trace (run (launch w c o g) inputs))
  = [(serverKind c, Server.mk (serverName c) "1.0.0" (parseLogLevel s) (g !! "enableContext7"))].
Proof.
  intros Hs. launch_cases c Hs w.
  all: try (idle_run inputs; reflexivity).
  all: destruct inputs as [|i inputs]; [reflexivity|].
  all: rewrite run_cons; first_input i; idle_run inputs; reflexivity.
Qed.

(** An action called with a parent bag that has no [logLevel] throws before
    its [try] block; the rejection is unhandled and ends the process. The
    parser never produces such a bag. *)
Example action_without_logLevel :
  launch calmWorld Agents ∅ ∅
  = mkProc (Exited 1)
      [ConsoleError [CStr "Unhandled Rejection at:"; CPromise; CStr "reason:"; CErr (typeError None)];
       Exit 1].
Proof. reflexivity. Qed.

(** C1. Every command line that reaches a command action makes the process
    call exactly one server constructor, whatever happens afterwards
    (settlement of [start()], signals, stray errors): [pm] builds a
    [PMServer] named [autopm-pm], [agents] an [AgentsServer] named
    [autopm-agents], and [all] one [PMServer] named [autopm-pm] and no
    second server. *)
Theorem one_server_per_invocation ae w argv c o g inputs :
  Cli.parse ae argv = Cli.Dispatch c o g ->
  exists cfg,
    constructions (trace (run (main ae w argv) inputs)) = [(serverKind c, cfg)]
    /\ Server.name cfg = serverName c.
Proof.
  intros Hparse. destruct (parse_globals _ _ _ _ _ Hparse) as [[s Hs] _].
  unfold main. rewrite Hparse.
  rewrite (launch_constructions w c o g s inputs Hs).
  eexists. split; reflexivity.
Qed.

Lemma one_server_per_invocation_witness :
  exists cfg,
    constructions (trace (run (main true calmWorld ["all"; "--pm-port"; "1"])
                              [StartSettled Resolved; Received SIGTERM]))
    = [(Server.PMServer, cfg)]
    /\ Server.name cfg = "autopm-pm".
Proof.
  exact (one_server_per_invocation true calmWorld ["all"; "--pm-port"; "1"] All
           _ _ [StartSettled Resolved; Received SIGTERM] eq_refl).
Defined.

(** C8. On every command line that reaches a command action, the parent's
    [enableContext7] is [true], and so is the [enableContext7] field of the
    configuration handed to the one server constructor: the flag
    [--enable-context7] is a plain flag whose default is [true], and no
    option of [program] is a negation, [--no-enable-context7] in
    particular is not a flag of [program]. *)
Theorem enableContext7_always_true ae w argv c o g inputs :
  Cli.parse ae argv = Cli.Dispatch c o g ->
  g !! "enableContext7" = Some (VBool true)
  /\ map (fun kc => Server.enableContext7 (snd kc))
         (constructions (trace (run (main ae w argv) inputs)))
     = [Some (VBool true)]
  /\ Forall (fun opt => Commander.negate opt = false) (Commander.cmdOptions Cli.program)
  /\ Commander.findOption Cli.program "--no-enable-context7" = None.
Proof.
  intros Hparse. destruct (parse_globals _ _ _ _ _ Hparse) as [[s Hs] Hc].
  split; [exact Hc|]. split.
  - unfold main. rewrite Hparse.
    rewrite (launch_constructions w c o g s inputs Hs). cbn. rewrite Hc. reflexivity.
  - split; [repeat constructor|reflexivity].
Qed.

Lemma enableContext7_always_true_witness :
  map (fun kc => Server.enableContext7 (snd kc))
      (constructions (trace (run (main false calmWorld ["--enable-context7"; "agents"]) [])))
  = [Some (VBool true)].
Proof.
  exact (proj1 (proj2 (enableContext7_always_true false calmWorld
                         ["--enable-context7"; "agents"] Agents _ _ [] eq_refl))).
Defined.

Lemma run_exited (inputs : list Input) (p : Proc) (c : Z) :
  phase p = Exited c -> run p inputs = p.
Proof.
  intros Hp. induction inputs as [|i inputs IH]; [reflexivity|].
  rewrite run_cons. unfold step at 1. rewrite Hp. exact IH.
Qed.

Ltac ends_with_two :=
  match goal with
  | |- exists pre _ _, ?tr = _ /\ _ =>
      exists (removelast (removelast tr)); cbn [removelast];
      eexists _, _; split; [reflexivity|split; reflexivity]
  end.

(** C2. In each of the three actions, when the constructor of the command's
    server throws [e] on the configuration the action builds, or returns
    and [start()] is rejected with [e], the [catch] block of the action
    runs: the trace ends with one ERROR entry that carries [e] followed by
    [process.exit(1)], this is the only ERROR entry and the only exit, the
    process is gone with status 1, and no constructor or [start()] is
    called a second time, then or ever after. *)
Theorem startup_failure_exits_1 ae w argv c o g e p :
  Cli.parse ae argv = Cli.Dispatch c o g ->
  StartupFailure w c g (main ae w argv) e p ->
  phase p = Exited 1
  /\ (exists pre logger msg,
        trace p = pre ++ [Log logger ERROR msg (Some e); Exit 1]
        /\ entries ERROR pre = [] /\ exits pre = [])
  /\ length (constructions (trace p)) = 1
  /\ length (starts (trace p)) <= 1
  /\ forall inputs, run p inputs = p.
Proof.
  intros Hparse Hfail.
  assert (forall q, phase q = Exited 1 -> forall inputs, run q inputs = q) as Hgone
    by (intros q Hq inputs; exact (run_exited inputs q 1 Hq)).
  unfold main in Hfail. rewrite Hparse in Hfail.
  inversion Hfail as [s Hs Hc|s Hs Hc]; subst; clear Hfail.
  - launch_cases c Hs w; simplify_eq;
      (split; [reflexivity|]); (split; [|cbn; auto with lia]);
      ends_with_two.
  - launch_cases c Hs w; simplify_eq;
      cbn [step phase trace settle exec fire andThen tryCatch loggerInfo app];
      (split; [reflexivity|]); (split; [|cbn; auto with lia]);
      ends_with_two.
Qed.

Lemma startup_failure_exits_1_witness :
  (phase (main true brokenWorld ["pm"]) = Exited 1
   /\ phase (main true brokenWorld ["agents"]) = Exited 1
   /\ phase (main true brokenWorld ["all"]) = Exited 1)
  /\ (phase (step (main true calmWorld ["pm"]) (StartSettled (Rejected boom))) = Exited 1
      /\ phase (step (main true calmWorld ["agents"]) (StartSettled (Rejected boom))) = Exited 1
      /\ phase (step (main true calmWorld ["all"]) (StartSettled (Rejected boom))) = Exited 1).
Proof.
  refine (conj (conj _ (conj _ _)) (conj _ (conj _ _))).
  - exact (proj1 (startup_failure_exits_1 true brokenWorld ["pm"] PM _ (Commander.defaults Cli.program) boom _ eq_refl
                    (ConstructorThrows brokenWorld PM (Commander.defaults Cli.program) _ boom "info" eq_refl eq_refl))).
  - exact (proj1 (startup_failure_exits_1 true brokenWorld ["agents"] Agents _ (Commander.defaults Cli.program) boom _ eq_refl
                    (ConstructorThrows brokenWorld Agents (Commander.defaults Cli.program) _ boom "info" eq_refl eq_refl))).
  - exact (proj1 (startup_failure_exits_1 true brokenWorld ["all"] All _ (Commander.defaults Cli.program) boom _ eq_refl
                    (ConstructorThrows brokenWorld All (Commander.defaults Cli.program) _ boom "info" eq_refl eq_refl))).
  - exact (proj1 (startup_failure_exits_1 true calmWorld ["pm"] PM _ (Commander.defaults Cli.program) boom _ eq_refl
                    (StartRejects calmWorld PM (Commander.defaults Cli.program) _ boom "info" eq_refl eq_refl))).
  - exact (proj1 (startup_failure_exits_1 true calmWorld ["agents"] Agents _ (Commander.defaults Cli.program) boom _ eq_refl
                    (StartRejects calmWorld Agents (Commander.defaults Cli.program) _ boom "info" eq_refl eq_refl))).
  - exact (proj1 (startup_failure_exits_1 true calmWorld ["all"] All _ (Commander.defaults Cli.program) boom _ eq_refl
                    (StartRejects calmWorld All (Commander.defaults Cli.program) _ boom "info" eq_refl eq_refl))).
Defined.

(** C5. In each of the three actions, when the constructor of the command's
    server returns on the configuration the action builds and [start()]
    resolves, the action is first suspended on [start()], then logs one
    more INFO entry, whose text contains [started successfully], and
    returns: the process is alive with no action pending, and
    [process.exit] was never called. *)
Theorem start_success_keeps_running ae w argv c o g s :
  Cli.parse ae argv = Cli.Dispatch c o g ->
  g !! "logLevel" = Some (VStr s) ->
  construct w (serverKind c) (serverConfig c s (g !! "enableContext7")) = None ->
  let p0 := main ae w argv in
  let p1 := step p0 (StartSettled Resolved) in
  pending p0 = true
  /\ phase p1 = Running
  /\ exits (trace p1) = []
  /\ exists logger msg,
       trace p1 = trace p0 ++ [Log logger INFO msg None]
       /\ Js.includes "started successfully" msg = true.
Proof.
  intros Hparse Hs Hc.
  unfold main. rewrite Hparse.
  launch_cases c Hs w; simplify_eq;
    cbn [step phase trace settle exec fire andThen tryCatch loggerInfo app];
    (split; [reflexivity|]); (split; [reflexivity|]); (split; [reflexivity|]);
    eexists _, _; split; reflexivity.
Qed.

Lemma start_success_keeps_running_witness :
  phase (step (main true calmWorld ["pm"]) (StartSettled Resolved)) = Running
  /\ phase (step (main true calmWorld ["agents"; "--log-level"; "error"])
                 (StartSettled Resolved)) = Running
  /\ phase (step (main true calmWorld ["all"]) (StartSettled Resolved)) = Running.
Proof.
  refine (conj _ (conj _ _)).
  - exact (proj1 (proj2 (start_success_keeps_running true calmWorld ["pm"] PM _
                           (Commander.defaults Cli.program) "info"
                           eq_refl eq_refl eq_refl))).
  - exact (proj1 (proj2 (start_success_keeps_running true calmWorld
                           ["agents"; "--log-level"; "error"] Agents _
                           (<["logLevel" := VStr "error"]> (Commander.defaults Cli.program))
                           "error"
                           eq_refl eq_refl eq_refl))).
  - exact (proj1 (proj2 (start_success_keeps_running true calmWorld ["all"] All _
                           (Commander.defaults Cli.program) "info"
                           eq_refl eq_refl eq_refl))).
Defined.

(** C4. The command line [pm --log-level debug --port 9090]: the parent's
    [logLevel] is [debug], which resolves to [DEBUG]; the one server built
    is a [PMServer] with name [autopm-pm], version [1.0.0], level [DEBUG]
    and [enableContext7] true; and when construction and [start()] succeed,
    the process is alive, [process.exit] was not called, and the INFO
    entries of the logger are exactly two, the [Starting...] line and the
    [started successfully] line. The four [CLI: ...] lines that the action
    writes with [console.error] are no logger entries; the whole trace is
    spelled out last. *)
Theorem pm_debug_scenario ae w :
  let argv := ["pm"; "--log-level"; "debug"; "--port"; "9090"] in
  let cfg := Server.mk "autopm-pm" "1.0.0" DEBUG (Some (VBool true)) in
  let logger := Logger.mk "AutoPM-PM" DEBUG in
  construct w Server.PMServer cfg = None ->
  let p := step (main ae w argv) (StartSettled Resolved) in
  (exists o g, Cli.parse ae argv = Cli.Dispatch PM o g
               /\ g !! "logLevel" = Some (VStr "debug")
               /\ o !! "port" = Some (VStr "9090"))
  /\ parseLogLevel "debug" = DEBUG
  /\ constructions (trace p) = [(Server.PMServer, cfg)]
  /\ phase p = Running
  /\ exits (trace p) = []
  /\ entries INFO (trace p)
     = [("Starting Project Management MCP Server...", None);
        ("Project Management server started successfully", None)]
  /\ trace p
     = [ConsoleError [CStr "CLI: Starting PM server command..."];
        NewLogger logger;
        ConsoleError [CStr "CLI: Created logger"];
        Log logger INFO "Starting Project Management MCP Server..." None;
        ConsoleError [CStr "CLI: Creating PMServer..."];
        NewServer Server.PMServer cfg;
        ConsoleError [CStr "CLI: PMServer created successfully"];
        Start Server.PMServer;
        Log logger INFO "Project Management server started successfully" None].
Proof.
  intros argv cfg logger Hctor p.
  assert (Cli.parse ae argv = Cli.parse true argv) as Hae by (destruct ae; reflexivity).
  assert (trace p
     = [ConsoleError [CStr "CLI: Starting PM server command..."];
        NewLogger logger;
        ConsoleError [CStr "CLI: Created logger"];
        Log logger INFO "Starting Project Management MCP Server..." None;
        ConsoleError [CStr "CLI: Creating PMServer..."];
        NewServer Server.PMServer cfg;
        ConsoleError [CStr "CLI: PMServer created successfully"];
        Start Server.PMServer;
        Log logger INFO "Project Management server started successfully" None]
          /\ phase p = Running) as [Htrace Hphase].
  { subst p. unfold main. rewrite Hae.
    change (Cli.parse true argv) with
      (Cli.Dispatch PM (<["port" := VStr "9090"]> (Commander.defaults Cli.pm))
                       (<["logLevel" := VStr "debug"]> (Commander.defaults Cli.program))).
    unfold launch, action, pmAction, callParseLogLevel.
    change (_ !! "logLevel") with (Some (VStr "debug")).
    change (_ !! "enableContext7") with (Some (VBool true)).
    cbn [andThen tryCatch consoleError newLogger loggerInfo loggerError
         processExit newServer awaitStart exec settle app].
    change (parseLogLevel "debug") with DEBUG.
    unfold cfg in Hctor. rewrite Hctor.
    cbn [andThen tryCatch loggerInfo exec settle app step phase trace].
    split; reflexivity. }
  split.
  { rewrite Hae. eexists _, _. split; [reflexivity|]. split; reflexivity. }
  split; [reflexivity|].
  rewrite Htrace. repeat split; try reflexivity. exact Hphase.
Qed.

Lemma pm_debug_scenario_witness :
  phase (step (main true calmWorld ["pm"; "--log-level"; "debug"; "--port"; "9090"])
              (StartSettled Resolved)) = Running.
Proof.
  exact (proj1 (proj2 (proj2 (proj2 (pm_debug_scenario true calmWorld eq_refl))))).
Defined.

(** ** Signals and stray errors *)

(** C6. A live process that receives SIGINT or SIGTERM, in whatever phase,
    writes one line with [console.error], which names the signal, and calls
    [process.exit(0)] in the same turn: nothing is awaited, no constructor
    and no [start()] is called, and nothing happens afterwards. *)
Theorem signal_exits_0 (p : Proc) (s : Signal) :
  alive p ->
  let q := step p (Received s) in
  (exists text,
     Js.includes (signalName s) text = true
     /\ q = mkProc (Exited 0) (trace p ++ [ConsoleError [CStr text]; Exit 0]))
  /\ constructions (trace q) = constructions (trace p)
  /\ starts (trace q) = starts (trace p)
  /\ forall inputs, run q inputs = q.
Proof.
  intros Halive q.
  assert (q = mkProc (Exited 0) (trace p ++ [ConsoleError (report (onSignal s)); Exit 0]))
    as Hq.
  { subst q. destruct p as [[k| |c] tr]; [| |discriminate Halive];
      destruct s; reflexivity. }
  rewrite Hq. split; [destruct s; eexists; (split; [|reflexivity]); reflexivity|].
  cbn [trace]. rewrite constructions_app, starts_app. cbn. rewrite !app_nil_r.
  repeat split. intros inputs. apply (run_exited inputs _ 0). reflexivity.
Qed.

Lemma signal_exits_0_witness :
  exists text,
    Js.includes "SIGINT" text = true
    /\ step (step (main true calmWorld ["pm"]) (StartSettled Resolved)) (Received SIGINT)
       = mkProc (Exited 0)
           (trace (step (main true calmWorld ["pm"]) (StartSettled Resolved))
            ++ [ConsoleError [CStr text]; Exit 0]).
Proof.
  exact (proj1 (signal_exits_0 (step (main true calmWorld ["pm"]) (StartSettled Resolved))
                  SIGINT eq_refl)).
Defined.

(** C7. A live process that meets an uncaught exception or an unhandled
    rejection, in whatever phase and whatever the error, writes one line
    with [console.error] that carries the error and calls
    [process.exit(1)]. The same holds of an error that escapes an action:
    it rejects the action's promise, which nobody handles. *)
Theorem stray_error_exits_1 (p : Proc) (e : JsError) (i : Input) :
  alive p ->
  i = UncaughtException e \/ i = UnhandledRejection e ->
  (exists line,
     In (CErr e) line
     /\ step p i = mkProc (Exited 1) (trace p ++ [ConsoleError line; Exit 1]))
  /\ (forall inputs, run (step p i) inputs = step p i)
  /\ settle (trace p, Thrown e) = step p (UnhandledRejection e).
Proof.
  intros Halive Hi.
  assert (exists line, In (CErr e) line
            /\ step p i = mkProc (Exited 1) (trace p ++ [ConsoleError line; Exit 1]))
    as (line & Hin & Hstep).
  { destruct p as [[k| |c] tr]; [| |discriminate Halive];
      destruct Hi as [-> | ->]; eexists; (split; [|reflexivity]); cbn; auto. }
  split; [exists line; auto|]. split.
  - intros inputs. rewrite Hstep. apply (run_exited inputs _ 1). reflexivity.
  - destruct p as [[k| |c] tr]; [| |discriminate Halive]; reflexivity.
Qed.

Lemma stray_error_exits_1_witness :
  exists line,
    In (CErr boom) line
    /\ step (main true calmWorld ["agents"]) (UnhandledRejection boom)
       = mkProc (Exited 1)
           (trace (main true calmWorld ["agents"]) ++ [ConsoleError line; Exit 1]).
Proof.
  exact (proj1 (stray_error_exits_1 (main true calmWorld ["agents"]) boom
                  (UnhandledRejection boom) eq_refl (or_intror eq_refl))).
Defined.

(** ** What the actions do not look at *)

(** C9. Two command lines that call the same action with the same parent
    options behave alike whatever their own options hold, the value of
    [--port] included: same trace, hence same server configuration and same
    log output, and same phase, now and after any inputs. The actions never
    read their first parameter. *)
Theorem port_is_never_read ae w argv1 argv2 c o1 o2 g inputs :
  Cli.parse ae argv1 = Cli.Dispatch c o1 g ->
  Cli.parse ae argv2 = Cli.Dispatch c o2 g ->
  run (main ae w argv1) inputs = run (main ae w argv2) inputs
  /\ action w c o1 g = action w c o2 g.
Proof.
  intros H1 H2. unfold main. rewrite H1, H2.
  split; [f_equal|]; destruct c; reflexivity.
Qed.

Lemma port_is_never_read_witness :
  run (main true calmWorld ["pm"; "--port"; "9090"]) [StartSettled Resolved]
  = run (main true calmWorld ["pm"; "--port=1"]) [StartSettled Resolved].
Proof.
  exact (proj1 (port_is_never_read true calmWorld ["pm"; "--port"; "9090"]
                  ["pm"; "--port=1"] PM _ _ _ [StartSettled Resolved] eq_refl eq_refl)).
Defined.

(** ** [all] against [pm] *)

Lemma withoutCliDiagnostics_app (t1 t2 : list Event) :
  withoutCliDiagnostics (t1 ++ t2) = withoutCliDiagnostics t1 ++ withoutCliDiagnostics t2.
Proof. apply List.filter_app. Qed.

Lemma handler_is_no_diagnostic (tr : list Event) (h : Handler) :
  In h [onSignal SIGINT; onSignal SIGTERM] \/ (exists e, h = onUncaughtException e)
  \/ (exists e, h = onUnhandledRejection e) ->
  withoutCliDiagnostics (trace (fire h tr))
  = withoutCliDiagnostics tr ++ [ConsoleError (report h); Exit (status h)].
Proof.
  intros Hh. unfold fire. cbn [trace]. rewrite withoutCliDiagnostics_app. f_equal.
  destruct Hh as [[<-|[<-|[]]]|[[e ->]|[e ->]]]; reflexivity.
Qed.

Lemma alike_step (p q : Proc) (i : Input) : alike p q -> alike (step p i) (step q i).
Proof.
  destruct p as [[k| |c] tp], q as [[k'| |c'] tq]; intros (Hp & Hph & Hc & Ht & Hq);
    cbn [pending phase trace] in Hp, Hph, Hc, Ht, Hq; try discriminate;
    [|unfold alike; cbn [step pending phase trace]; auto].
  unfold sameUpToText in Ht.
  destruct i as [r|s|e|e]; cbn [step phase trace]; [unfold alike; cbn [pending phase trace]; auto| | |].
  all: unfold alike, sameUpToText; split; [reflexivity|]; split; [reflexivity|].
  all: rewrite !handler_is_no_diagnostic by (destruct s || idtac; cbn; eauto).
  all: rewrite Hq.
  all: unfold fire; cbn [trace]; rewrite !constructions_app, !map_app, Hc, Ht; auto.
Qed.

Lemma alike_conclusion (p q : Proc) :
  alike p q ->
  constructions (trace p) = constructions (trace q)
  /\ sameUpToText (withoutCliDiagnostics (trace p)) (trace q)
  /\ withoutCliDiagnostics (trace q) = trace q
  /\ exitStatus p = exitStatus q
  /\ pending p = pending q.
Proof.
  intros (Hp & Hph & Hc & Ht & Hq). repeat split; try assumption.
  - unfold exitStatus. rewrite Hph. reflexivity.
  - unfold pending in *. rewrite <- Hph. destruct (phase p); congruence.
Qed.

Lemma alike_run (inputs : list Input) : forall p q,
  alike p q -> alike (run p inputs) (run q inputs).
Proof.
  induction inputs as [|i inputs IH]; intros p q H; [exact H|].
  rewrite !run_cons. apply IH, alike_step, H.
Qed.

(** C10, as the code has it. With the same parent options, [all] hands the
    [PMServer] constructor the very configuration that [pm] hands it; and
    once the [CLI: ...] lines that only [pm] writes with [console.error] are
    set aside, the two traces differ only in the logger's name and in the
    text of the logger's messages, and the two processes are in the same
    phase, now and after any inputs. *)
Theorem all_matches_pm_up_to_text ae w argv1 argv2 o1 o2 g inputs :
  Cli.parse ae argv1 = Cli.Dispatch PM o1 g ->
  Cli.parse ae argv2 = Cli.Dispatch All o2 g ->
  let p := run (main ae w argv1) inputs in
  let q := run (main ae w argv2) inputs in
  constructions (trace p) = constructions (trace q)
  /\ sameUpToText (withoutCliDiagnostics (trace p)) (trace q)
  /\ withoutCliDiagnostics (trace q) = trace q
  /\ exitStatus p = exitStatus q
  /\ pending p = pending q.
Proof.
  intros H1 H2. destruct (parse_globals _ _ _ _ _ H1) as [[s Hs] _].
  unfold main. rewrite H1, H2.
  unfold launch, action, pmAction, allAction, callParseLogLevel. rewrite Hs.
  cbn [andThen tryCatch consoleError newLogger loggerInfo loggerError
       processExit newServer awaitStart exec settle app].
  destruct (construct w _ _) as [e|] eqn:Hctor;
    cbn [andThen tryCatch consoleError newLogger loggerInfo loggerError
         processExit exec settle app].
  - rewrite !(run_exited inputs _ 1) by reflexivity.
    cbn. unfold sameUpToText. repeat split; reflexivity.
  - destruct inputs as [|i inputs]; [cbn; unfold sameUpToText; repeat split; reflexivity|].
    rewrite !run_cons. first_input i.
    all: try destruct sg.
    all: apply alike_conclusion, alike_run.
    all: unfold alike, sameUpToText; repeat split; reflexivity.
Qed.

Lemma all_matches_pm_up_to_text_witness :
  sameUpToText
    (withoutCliDiagnostics
       (trace (run (main true calmWorld ["pm"; "--log-level"; "warn"])
                   [StartSettled Resolved; Received SIGINT])))
    (trace (run (main true calmWorld ["all"; "--log-level"; "warn"])
                [StartSettled Resolved; Received SIGINT])).
Proof.
  exact (proj1 (proj2 (all_matches_pm_up_to_text true calmWorld
                         ["pm"; "--log-level"; "warn"] ["all"; "--log-level"; "warn"]
                         _ _ _ [StartSettled Resolved; Received SIGINT] eq_refl eq_refl))).
Defined.

(** C10, as it is worded, fails: on the plain command lines [pm] and [all]
    the two traces do not agree up to logger name and message text, and
    not even in length, since [pm] alone writes its [CLI: ...] lines. *)
Lemma pm_all_differ_beyond_text :
  (exists o1 o2 g,
     Cli.parse true ["pm"] = Cli.Dispatch PM o1 g
     /\ Cli.parse true ["all"] = Cli.Dispatch All o2 g)
  /\ ~ sameUpToText (trace (main true calmWorld ["pm"])) (trace (main true calmWorld ["all"]))
  /\ length (trace (main true calmWorld ["pm"])) = 8
  /\ length (trace (main true calmWorld ["all"])) = 4.
Proof.
  split; [eexists _, _, _; split; reflexivity|].
  split; [|split; reflexivity].
  unfold sameUpToText. intros H. apply (f_equal (@length Event)) in H.
  rewrite !length_map in H. vm_compute in H. discriminate H.
Qed.

(** * Further properties *)

(** ** [parseLogLevel] *)

Lemma toLowerCase_eq_of_equalIgnoringCase (s t : string) :
  LevelSpec.equalIgnoringCase s t = true -> Js.toLowerCase s = Js.toLowerCase t.
Proof.
  rewrite equalIgnoringCase_toLowerCase. apply String.eqb_eq.
Qed.

(** X1. Two strings that differ only in the case of their letters resolve to
    the same level. *)
Theorem parseLogLevel_ignores_case (s t : string) :
  LevelSpec.equalIgnoringCase s t = true -> parseLogLevel s = parseLogLevel t.
Proof.
  intros H. unfold parseLogLevel.
  rewrite (toLowerCase_eq_of_equalIgnoringCase s t H). reflexivity.
Qed.

Lemma parseLogLevel_ignores_case_witness :
  parseLogLevel "WaRn" = parseLogLevel "wArN".
Proof. exact (parseLogLevel_ignores_case "WaRn" "wArN" eq_refl). Defined.

(** X2. [INFO] is the only level an unrecognised string can give: the level
    is [ERROR], [WARN] or [DEBUG] exactly when the string spells that name,
    letter case apart, and [INFO] exactly when it spells none of these
    three. *)
Theorem parseLogLevel_inversion (s : string) :
  (parseLogLevel s = ERROR <-> LevelSpec.equalIgnoringCase s "error" = true)
  /\ (parseLogLevel s = WARN <-> LevelSpec.equalIgnoringCase s "warn" = true)
  /\ (parseLogLevel s = DEBUG <-> LevelSpec.equalIgnoringCase s "debug" = true)
  /\ (parseLogLevel s = INFO <->
      LevelSpec.equalIgnoringCase s "error" = false
      /\ LevelSpec.equalIgnoringCase s "warn" = false
      /\ LevelSpec.equalIgnoringCase s "debug" = false).
Proof.
  rewrite !equalIgnoringCase_toLowerCase. unfold parseLogLevel.
  change (Js.toLowerCase "error") with "error".
  change (Js.toLowerCase "warn") with "warn".
  change (Js.toLowerCase "debug") with "debug".
  destruct (String.eqb_spec (Js.toLowerCase s) "error") as [->|He];
    [cbn; intuition congruence|].
  destruct (String.eqb_spec (Js.toLowerCase s) "warn") as [->|Hw];
    [cbn; intuition congruence|].
  destruct (String.eqb_spec (Js.toLowerCase s) "info") as [->|Hi];
    [cbn; intuition congruence|].
  destruct (String.eqb_spec (Js.toLowerCase s) "debug") as [Hd|Hd];
    cbn; intuition congruence.
Qed.

(** ** How a run can end *)

Lemma step_fatal (p : Proc) (i : Input) (h : Handler) :
  alive p -> fatalHandler i = Some h -> step p i = fire h (trace p).
Proof.
  destruct p as [[k| |c] tr]; intros Halive Hi; [| |discriminate Halive];
    destruct i; simplify_eq/=; reflexivity.
Qed.

Lemma Fatal_cons (h : Handler) (i : Input) (inputs : list Input) :
  Fatal h inputs -> Fatal h (i :: inputs).
Proof. intros (j & Hj & Hh). exists j. split; [right; exact Hj|exact Hh]. Qed.

Lemma Fatal_here (h : Handler) (i : Input) (inputs : list Input) :
  fatalHandler i = Some h -> Fatal h (i :: inputs).
Proof. intros Hh. exists i. split; [left; reflexivity|exact Hh]. Qed.

(** What an input that sets off a handler tells about the exit status. *)
Lemma Fatal_status (h : Handler) (inputs : list Input) :
  Fatal h inputs ->
  (status h = 0%Z /\ exists s, In (Received s) inputs)
  \/ (status h = 1%Z /\ exists e,
        In (UncaughtException e) inputs \/ In (UnhandledRejection e) inputs).
Proof.
  intros ([r|s|e|e] & Hin & Hh); simplify_eq/=; [left|right|right];
    (split; [try destruct s; reflexivity|eauto]).
Qed.

(** A process with no action pending either stays as it is or is ended by
    the handler of one of the inputs. *)
Lemma run_idle_cases (inputs : list Input) : forall p,
  pending p = false ->
  run p inputs = p
  \/ (phase p = Running /\ exists h, Fatal h inputs /\ run p inputs = fire h (trace p)).
Proof.
  induction inputs as [|i inputs IH]; intros p Hp; [left; reflexivity|].
  destruct p as [[k| |c] tr]; [discriminate Hp| |left; apply (run_exited _ _ c); reflexivity].
  rewrite run_cons. destruct (fatalHandler i) as [h|] eqn:Hi.
  - right. split; [reflexivity|]. exists h. split; [apply Fatal_here, Hi|].
    rewrite (step_fatal (mkProc Running tr) i h eq_refl Hi).
    apply (run_exited _ _ (status h)). reflexivity.
  - destruct i; try discriminate Hi. cbn [step phase].
    destruct (IH (mkProc Running tr) eq_refl) as [H|(_ & h & Hf & H)]; [left; exact H|].
    right. split; [reflexivity|]. exists h. split; [apply Fatal_cons, Hf|exact H].
Qed.

(** A process suspended on [await server.start()] stays so while nothing
    happens; otherwise it is ended by a handler, or the promise settles and
    the rest of the action runs, after which a handler may still end it. *)
Lemma run_starting (k : Settled -> Prog) (tr : list Event) (inputs : list Input) :
  (forall r, pending (settle (exec (k r) tr)) = false) ->
  (inputs = [] /\ run (mkProc (Starting k) tr) inputs = mkProc (Starting k) tr)
  \/ (exists h, Fatal h inputs /\ run (mkProc (Starting k) tr) inputs = fire h tr)
  \/ (exists r, In (StartSettled r) inputs
        /\ (run (mkProc (Starting k) tr) inputs = settle (exec (k r) tr)
            \/ (phase (settle (exec (k r) tr)) = Running
                /\ exists h, Fatal h inputs
                     /\ run (mkProc (Starting k) tr) inputs
                        = fire h (trace (settle (exec (k r) tr)))))).
Proof.
  intros Hk. destruct inputs as [|i inputs]; [left; split; reflexivity|].
  right. rewrite run_cons. destruct (fatalHandler i) as [h|] eqn:Hi.
  - left. exists h. split; [apply Fatal_here, Hi|].
    rewrite (step_fatal (mkProc (Starting k) tr) i h eq_refl Hi).
    apply (run_exited _ _ (status h)). reflexivity.
  - right. destruct i as [r| | |]; try discriminate Hi. exists r.
    split; [left; reflexivity|]. cbn [step phase trace].
    destruct (run_idle_cases inputs _ (Hk r)) as [H|(Hph & h & Hf & H)]; [left; exact H|].
    right. split; [exact Hph|]. exists h. split; [apply Fatal_cons, Hf|exact H].
Qed.

Ltac run_cases inputs :=
  lazymatch goal with
  | |- context [run (mkProc (Exited ?c) ?T) inputs] =>
      rewrite !(run_exited inputs (mkProc (Exited c) T) c eq_refl)
  | |- context [run (mkProc (Starting ?K) ?T) inputs] =>
      let Hrun := fresh "Hrun" in
      let r := fresh "r" in
      destruct (run_starting K T inputs ltac:(intros [|?]; reflexivity))
        as [[?Hnil Hrun]|[(?h & ?Hfatal & Hrun)
                         |(r & ?Hin & [Hrun|(?Hph & ?h & ?Hfatal & Hrun)])]];
      [ | | destruct r as [|?e] | destruct r as [|?e]; [|discriminate] ];
      rewrite !Hrun; clear Hrun;
      cbn [settle exec fire andThen tryCatch loggerInfo loggerError processExit
           app trace phase]
  end.

Lemma milestones_app (t1 t2 : list Event) :
  milestones (t1 ++ t2) = milestones t1 ++ milestones t2.
Proof. apply omap_app. Qed.

(** X3. The steps of a start-up come in one order in every run of a
    dispatched command: the logger is created, the server is constructed,
    [start()] is called only when the constructor returned, and
    [process.exit], when it is called, is called once and last. *)
Theorem lifecycle_order ae w argv c o g inputs :
  Cli.parse ae argv = Cli.Dispatch c o g ->
  let p := run (main ae w argv) inputs in
  milestones (trace p)
  = [LoggerCreated; ServerConstructed (serverKind c)]
    ++ match constructorOutcomes w (trace p) with
       | [None] => [StartCalled (serverKind c)]
       | _ => []
       end
    ++ match exitStatus p with
       | Some code => [ProcessExited code]
       | None => []
       end.
Proof.
  intros Hparse. destruct (parse_globals _ _ _ _ _ Hparse) as [[s Hs] _].
  unfold main. rewrite Hparse.
  launch_cases c Hs w; run_cases inputs.
  all: unfold constructorOutcomes; rewrite ?constructions_app, ?milestones_app;
    cbn [constructions milestones omap list_omap map app fst snd trace].
  all: rewrite Hctor; reflexivity.
Qed.

Lemma lifecycle_order_witness :
  milestones (trace (run (main true brokenWorld ["pm"]) [Received SIGINT]))
  = [LoggerCreated; ServerConstructed Server.PMServer; ProcessExited 1].
Proof.
  exact (lifecycle_order true brokenWorld ["pm"] PM _ _ [Received SIGINT] eq_refl).
Defined.

Lemma loggers_app (t1 t2 : list Event) : loggers (t1 ++ t2) = loggers t1 ++ loggers t2.
Proof. apply omap_app. Qed.

Lemma logUsers_app (t1 t2 : list Event) : logUsers (t1 ++ t2) = logUsers t1 ++ logUsers t2.
Proof. apply omap_app. Qed.

Lemma entries_app (lvl : LogLevel) (t1 t2 : list Event) :
  entries lvl (t1 ++ t2) = entries lvl t1 ++ entries lvl t2.
Proof. apply omap_app. Qed.

Ltac read_trace :=
  unfold constructorOutcomes;
  rewrite ?constructions_app, ?milestones_app, ?loggers_app, ?logUsers_app,
          ?entries_app, ?exits_app;
  cbn [constructions milestones loggers logUsers entries exits
       omap list_omap map app fst snd trace phase exitStatus fire].

(** X4. Every run of a dispatched command creates exactly one logger, named
    after the command; every [logger.info] and [logger.error] call goes
    through it; and its level is the [logLevel] of the server's
    configuration, both being [parseLogLevel] of the parent's [logLevel]. *)
Theorem one_logger_one_level ae w argv c o g inputs :
  Cli.parse ae argv = Cli.Dispatch c o g ->
  let p := run (main ae w argv) inputs in
  exists s,
    g !! "logLevel" = Some (VStr s)
    /\ loggers (trace p) = [Logger.mk (loggerName c) (parseLogLevel s)]
    /\ Forall (fun l => l = Logger.mk (loggerName c) (parseLogLevel s)) (logUsers (trace p))
    /\ map (fun kc => Server.logLevel (snd kc)) (constructions (trace p))
       = [parseLogLevel s].
Proof.
  intros Hparse. destruct (parse_globals _ _ _ _ _ Hparse) as [[s Hs] _].
  exists s. split; [exact Hs|].
  unfold main. rewrite Hparse.
  launch_cases c Hs w; run_cases inputs; read_trace.
  all: split; [reflexivity|]; split; [repeat constructor|reflexivity].
Qed.

Lemma one_logger_one_level_witness :
  exists s,
    loggers (trace (run (main true brokenWorld ["--log-level"; "Warn"; "agents"]) []))
    = [Logger.mk "AutoPM-Agents" (parseLogLevel s)].
Proof.
  destruct (one_logger_one_level true brokenWorld ["--log-level"; "Warn"; "agents"]
              Agents _ _ [] eq_refl) as (s & _ & H & _).
  exists s. exact H.
Defined.

(** X5. Why a process is gone. After a help, version or usage exit of the
    parser the status is the parser's. After a dispatch, status 0 means a
    SIGINT or SIGTERM was received, and status 1 means that the constructor
    threw, that [start()] was rejected, or that an uncaught exception or an
    unhandled rejection occurred. No other status exists, and a process
    that meets none of these stays alive. *)
Theorem exit_cause ae w argv inputs code :
  let p := run (main ae w argv) inputs in
  exitStatus p = Some code ->
  (exists h, Cli.parse ae argv = Cli.Halted h /\ code = Commander.exitCode h)
  \/ (code = 0%Z /\ exists s, In (Received s) inputs)
  \/ (code = 1%Z
      /\ ((exists e, constructorOutcomes w (trace p) = [Some e])
          \/ exists e, In (StartSettled (Rejected e)) inputs
                       \/ In (UncaughtException e) inputs
                       \/ In (UnhandledRejection e) inputs)).
Proof.
  intros p H. subst p. revert H.
  unfold main. destruct (Cli.parse ae argv) as [c o g|h] eqn:Hparse; intros H.
  - destruct (parse_globals _ _ _ _ _ Hparse) as [[s Hs] _].
    right. revert H. launch_cases c Hs w; run_cases inputs; read_trace;
      intros H; simplify_eq.
    all: try (right; split; [reflexivity|]; left; rewrite Hctor; eauto; fail).
    all: try (right; split; [reflexivity|]; right; eauto; fail).
    all: destruct (Fatal_status _ _ Hfatal) as [[-> Hs']|[-> [e' He']]];
      [left; auto|right; split; [reflexivity|]; right; exists e'; tauto].
  - left. exists h. split; [reflexivity|].
    rewrite (run_exited inputs (mkProc (Exited (Commander.exitCode h)) _)
               (Commander.exitCode h) eq_refl) in H.
    cbn in H. congruence.
Qed.

Lemma exit_cause_witness :
  (exists h, Cli.parse true ["pm"] = Cli.Halted h /\ 0%Z = Commander.exitCode h)
  \/ (0%Z = 0%Z /\ exists s, In (Received s) [StartSettled Resolved; Received SIGTERM])
  \/ (0%Z = 1%Z
      /\ ((exists e,
             constructorOutcomes calmWorld
               (trace (run (main true calmWorld ["pm"])
                           [StartSettled Resolved; Received SIGTERM])) = [Some e])
          \/ exists e,
               In (StartSettled (Rejected e)) [StartSettled Resolved; Received SIGTERM]
               \/ In (UncaughtException e) [StartSettled Resolved; Received SIGTERM]
               \/ In (UnhandledRejection e) [StartSettled Resolved; Received SIGTERM])).
Proof.
  exact (exit_cause true calmWorld ["pm"] [StartSettled Resolved; Received SIGTERM] 0
           eq_refl).
Defined.

(** X6. An ERROR entry is never logged by a process that goes on: in every
    run of a dispatched command there is no ERROR entry at all, or there is
    exactly one, it carries the error that the constructor threw or that
    [start()] was rejected with, and the process is gone with status 1. *)
Theorem error_entry_is_fatal ae w argv c o g inputs :
  Cli.parse ae argv = Cli.Dispatch c o g ->
  let p := run (main ae w argv) inputs in
  entries ERROR (trace p) = []
  \/ exists m e,
       entries ERROR (trace p) = [(m, Some e)]
       /\ exitStatus p = Some 1%Z
       /\ (constructorOutcomes w (trace p) = [Some e]
           \/ In (StartSettled (Rejected e)) inputs).
Proof.
  intros Hparse. destruct (parse_globals _ _ _ _ _ Hparse) as [[s Hs] _].
  unfold main. rewrite Hparse.
  launch_cases c Hs w; run_cases inputs; read_trace.
  all: try (left; reflexivity).
  all: right; eexists _, _; split; [reflexivity|]; split; [reflexivity|].
  all: try (left; rewrite Hctor; reflexivity).
  all: right; assumption.
Qed.

Lemma error_entry_is_fatal_witness :
  entries ERROR (trace (run (main true calmWorld ["all"]) [StartSettled (Rejected boom)])) = []
  \/ exists m e,
       entries ERROR (trace (run (main true calmWorld ["all"]) [StartSettled (Rejected boom)]))
       = [(m, Some e)]
       /\ exitStatus (run (main true calmWorld ["all"]) [StartSettled (Rejected boom)])
          = Some 1%Z
       /\ (constructorOutcomes calmWorld
             (trace (run (main true calmWorld ["all"]) [StartSettled (Rejected boom)]))
           = [Some e]
           \/ In (StartSettled (Rejected e)) [StartSettled (Rejected boom)]).
Proof.
  exact (error_entry_is_fatal true calmWorld ["all"] All _ _
           [StartSettled (Rejected boom)] eq_refl).
Defined.

(** X7. Success is never announced early: in a run of a dispatched command,
    an INFO entry whose text contains [started successfully] is there only
    if the constructor returned and the promise of [start()] was resolved. *)
Theorem success_only_after_start ae w argv c o g inputs m :
  Cli.parse ae argv = Cli.Dispatch c o g ->
  let p := run (main ae w argv) inputs in
  In (m, None) (entries INFO (trace p)) ->
  Js.includes "started successfully" m = true ->
  constructorOutcomes w (trace p) = [None] /\ In (StartSettled Resolved) inputs.
Proof.
  intros Hparse. destruct (parse_globals _ _ _ _ _ Hparse) as [[s Hs] _].
  unfold main. rewrite Hparse.
  launch_cases c Hs w; run_cases inputs; read_trace.
  all: intros Hent Hm.
  all: repeat (destruct Hent as [Hent|Hent]; [simplify_eq; try discriminate Hm|]);
    try contradiction.
  all: split; [rewrite Hctor; reflexivity|assumption].
Qed.

Lemma success_only_after_start_witness :
  constructorOutcomes calmWorld
    (trace (run (main true calmWorld ["agents"]) [StartSettled Resolved])) = [None]
  /\ In (StartSettled Resolved) [StartSettled Resolved].
Proof.
  exact ((success_only_after_start true calmWorld ["agents"] Agents _ _
                  [StartSettled Resolved] "Agents server started successfully"
                  eq_refl (or_intror (or_introl eq_refl)) eq_refl)).
Defined.




(** ** What the option bags hold *)

Lemma append_cons (a : ascii) (s t : string) : String a s +:+ t = String a (s +:+ t).
Proof. reflexivity. Qed.

Lemma startsWith_take_indexOf (ch : ascii) (s : string) (i : nat) :
  Js.indexOf ch s = Some i ->
  Js.startsWith (Js.take i s +:+ String ch EmptyString) s = true.
Proof.
  revert i. induction s as [|a s IH]; intros i; cbn [Js.indexOf]; [discriminate|].
  destruct (Ascii.eqb_spec a ch) as [->|Hne].
  - intros [= <-]. change (Js.take 0 (String ch s) +:+ String ch EmptyString)
      with (String ch EmptyString).
    cbn [Js.startsWith]. rewrite Ascii.eqb_refl. reflexivity.
  - destruct (Js.indexOf ch s) as [j|]; [|discriminate].
    intros [= <-]. cbn [Js.take]. rewrite append_cons. cbn [Js.startsWith].
    rewrite Ascii.eqb_refl. apply IH. reflexivity.
Qed.

Section ParseStateInvariant.
Import Commander.

Variable c : CommandDecl.
Variable P : string -> Prop.
Variable J : ParseState -> Prop.

Hypothesis J_value : forall o a v st,
  In o (cmdOptions c) -> P a -> mentions (long o) a = true -> required o = true ->
  J st -> J (store (handleOptionValue o (Some v)) st).
Hypothesis J_flag : forall o a st,
  In o (cmdOptions c) -> P a -> mentions (long o) a = true -> required o = false ->
  J st -> J (store (handleOptionValue o None) st).
Hypothesis J_push : forall b args st,
  Forall P args -> J st -> J (push b args st).

Lemma findOption_long (arg : string) (o : OptionDecl) :
  findOption c arg = Some (FoundOption o) -> long o = arg.
Proof.
  unfold findOption. destruct (_ && _); [discriminate|].
  destruct (List.find _ _) as [o'|] eqn:Hfind; simpl; [|discriminate].
  intros [= <-]. apply find_some in Hfind. destruct Hfind as [_ Heq].
  apply String.eqb_eq in Heq. exact Heq.
Qed.

Lemma findOption_mentions (arg : string) (o : OptionDecl) :
  findOption c arg = Some (FoundOption o) ->
  In o (cmdOptions c) /\ mentions (long o) arg = true.
Proof.
  intros H. split; [exact (findOption_In c arg o H)|].
  unfold mentions. rewrite (findOption_long arg o H), String.eqb_refl. reflexivity.
Qed.

Lemma flagWithValue_mentions (arg flag v : string) (o : OptionDecl) :
  flagWithValue arg = Some (flag, v) ->
  findOption c flag = Some (FoundOption o) ->
  In o (cmdOptions c) /\ mentions (long o) arg = true.
Proof.
  intros Hfv Hfind. split; [exact (findOption_In c flag o Hfind)|].
  rewrite (findOption_long flag o Hfind).
  unfold flagWithValue in Hfv. destruct (Js.startsWith "--" arg); [|discriminate].
  destruct (Js.indexOf "=" arg) as [i|] eqn:Hi; [|discriminate].
  destruct (3 <=? i)%nat; [|discriminate]. injection Hfv as Hl _.
  unfold mentions. rewrite <- Hl, (startsWith_take_indexOf _ _ _ Hi).
  apply orb_true_r.
Qed.

(** An invariant of the option listeners and of [push] holds of the state
    that [parseOptions] returns; the listeners only run for options that
    some argument names. *)
Lemma parseOptions_invariant (args : list string) :
  forall st st', Forall P args -> J st -> parseOptions c args st = inr st' -> J st'.
Proof.
  induction args as [args IH] using (induction_ltof1 _ (@length string)).
  unfold ltof in IH.
  destruct args as [|arg rest]; intros st st' HP HJ H.
  - injection H as <-. exact HJ.
  - apply Forall_cons_iff in HP as [Harg Hrest].
    assert (forall v rest', rest = v :: rest' -> Forall P rest') as Htail
      by (intros v rest' ->; apply Forall_cons_iff in Hrest; tauto).
    cbn [parseOptions] in H.
    repeat case_match; simplify_eq;
      try (apply J_push; [repeat constructor; assumption|exact HJ]);
      try (eapply IH; [| | |eassumption]; [simpl; lia|eauto|]);
      try (apply J_push; [repeat constructor; assumption|exact HJ]);
      try (edestruct findOption_mentions as [? ?]; [eassumption|]; eauto; fail);
      try (edestruct flagWithValue_mentions as [? ?]; [eassumption|eassumption|]; eauto).
Qed.

End ParseStateInvariant.

Lemma parse_inversion ae argv c o g :
  Cli.parse ae argv = Cli.Dispatch c o g ->
  exists st st2,
    Commander.parseOptions Cli.program argv
      (Commander.mkState (Commander.defaults Cli.program) [] [] false) = inr st
    /\ g = Commander.values st
    /\ Commander.parseOptions (Cli.decl c) (Commander.unknown st)
         (Commander.mkState (Commander.defaults (Cli.decl c)) [] [] false) = inr st2
    /\ o = Commander.values st2.
Proof.
  unfold Cli.parse.
  destruct (Commander.parseOptions Cli.program argv _) as [h|st] eqn:Hparse; [discriminate|].
  destruct (Commander.operands st) as [|op ops]; [repeat case_match; discriminate|].
  destruct (Cli.findCommand op) as [c'|]; [|repeat case_match; discriminate].
  unfold Cli.parseSubcommand.
  destruct (Commander.parseOptions (Cli.decl c') _ _) as [h|st2] eqn:Hsub; [discriminate|].
  intros H. exists st, st2.
  repeat case_match; simplify_eq; auto.
Qed.

(** What the parent leaves for the subcommand comes from the command line. *)
Lemma unknown_from_argv (c : Commander.CommandDecl) (args : list string) st st' :
  Commander.parseOptions c args st = inr st' ->
  Forall (fun a => In a args) (Commander.unknown st) ->
  Forall (fun a => In a args) (Commander.unknown st').
Proof.
  intros H Hst.
  refine (parseOptions_invariant c (fun a => In a args)
            (fun s => Forall (fun a => In a args) (Commander.unknown s))
            _ _ _ args st st' _ Hst H).
  - intros; assumption.
  - intros; assumption.
  - intros b l s Hl Hs. unfold Commander.push.
    destruct (_ || _); cbn; [apply Forall_app; split|]; assumption.
  - apply Stdlib.Lists.List.Forall_forall. auto.
Qed.

(** X9. The bags an action receives hold the declared keys and no others:
    the parent's bag holds [logLevel] and [enableContext7]; the action's own
    bag holds [port] for [pm] and [agents], [pmPort] and [agentsPort] for
    [all], each with a string. No port reaches the parent's bag and no
    parent option reaches the action's own. *)
Theorem option_bags_keys ae argv c o g :
  Cli.parse ae argv = Cli.Dispatch c o g ->
  dom g = ({[ "logLevel"; "enableContext7" ]} : gset string)
  /\ dom o = (match c with
              | PM | Agents => {[ "port" ]}
              | All => {[ "pmPort"; "agentsPort" ]}
              end : gset string)
  /\ map_Forall (fun _ v => exists s, v = VStr s) o.
Proof.
  intros Hparse.
  destruct (parse_inversion _ _ _ _ _ Hparse) as (st & st2 & Hg & -> & Ho & ->).
  split; [|split].
  - refine (parseOptions_values Cli.program
              (fun vals => dom vals = ({[ "logLevel"; "enableContext7" ]} : gset string))
              _ _ argv _ st _ Hg).
    + intros opt v vals [<-|[<-|[]]] _ Hd; cbn; rewrite dom_insert_L, Hd; set_solver.
    + intros opt vals [<-|[<-|[]]] _ Hd; cbn; rewrite dom_insert_L, Hd; set_solver.
    + cbn [Commander.values]. rewrite program_defaults, !dom_insert_L, dom_empty_L.
      set_solver.
  - destruct c;
      (refine (parseOptions_values _ (fun vals => dom vals = _) _ _ _ _ st2 _ Ho);
       [ intros opt v vals Hin _ Hd; cbn in Hin; intuition subst; cbn;
         rewrite dom_insert_L, Hd; set_solver
       | intros opt vals Hin _ Hd; cbn in Hin; intuition subst; cbn;
         rewrite dom_insert_L, Hd; set_solver
       | cbn [Commander.values];
         match goal with
         | |- dom (Commander.defaults ?d) = _ =>
             let m := eval vm_compute in (map_to_list (Commander.defaults d)) in
             replace (Commander.defaults d) with (list_to_map m : gmap string Value)
               by reflexivity
         end;
         cbn [list_to_map foldr]; rewrite ?dom_insert_L, dom_empty_L; set_solver ]).
  - destruct c;
      (refine (parseOptions_values _ (map_Forall (fun _ v => exists s, v = VStr s))
                 _ _ _ _ st2 _ Ho);
       [ intros opt v vals Hin _ Hd; apply map_Forall_insert_2; eauto
       | intros opt vals Hin Hreq _; cbn in Hin; intuition subst; discriminate Hreq
       | cbn [Commander.values];
         match goal with
         | |- map_Forall _ (Commander.defaults ?d) =>
             let m := eval vm_compute in (map_to_list (Commander.defaults d)) in
             replace (Commander.defaults d) with (list_to_map m : gmap string Value)
               by reflexivity
         end;
         cbn [list_to_map foldr];
         repeat (apply map_Forall_insert_2; [eauto|]); apply map_Forall_empty ]).
Qed.

Lemma option_bags_keys_witness :
  exists o g,
    Cli.parse false ["all"; "--agents-port=9"; "--log-level"; "debug"] = Cli.Dispatch All o g
    /\ dom o = ({[ "pmPort"; "agentsPort" ]} : gset string).
Proof.
  eexists _, _. split; [reflexivity|].
  exact (proj1 (proj2 (option_bags_keys false
                         ["all"; "--agents-port=9"; "--log-level"; "debug"] All _ _ eq_refl))).
Defined.

Lemma values_store f st :
  Commander.values (Commander.store f st) = f (Commander.values st).
Proof. reflexivity. Qed.

(** An option that no argument names keeps the value it had. *)
Lemma parseOptions_unmentioned (c : Commander.CommandDecl) (opt : Commander.OptionDecl)
    (args : list string) st st' :
  (forall o', In o' (Commander.cmdOptions c) ->
     Commander.attributeName o' = Commander.attributeName opt ->
     Commander.long o' = Commander.long opt) ->
  Forall (fun a => mentions (Commander.long opt) a = false) args ->
  Commander.parseOptions c args st = inr st' ->
  Commander.values st' !! Commander.attributeName opt
  = Commander.values st !! Commander.attributeName opt.
Proof.
  intros Hinj Hargs H.
  refine (parseOptions_invariant c (fun a => mentions (Commander.long opt) a = false)
            (fun s => Commander.values s !! Commander.attributeName opt
                      = Commander.values st !! Commander.attributeName opt)
            _ _ _ args st st' Hargs eq_refl H).
  - intros o' a v s Hin Ha Hm _ Hs. rewrite values_store. cbn [Commander.handleOptionValue].
    rewrite lookup_insert_ne; [exact Hs|].
    intros Heq. rewrite (Hinj o' Hin Heq) in Hm. congruence.
  - intros o' a s Hin Ha Hm _ Hs. rewrite values_store. cbn [Commander.handleOptionValue].
    rewrite lookup_insert_ne; [exact Hs|].
    intros Heq. rewrite (Hinj o' Hin Heq) in Hm. congruence.
  - intros b l s _ Hs. rewrite values_push. exact Hs.
Qed.

Lemma declared_names_distinct (c : Commander.CommandDecl) :
  In c [Cli.program; Cli.pm; Cli.agents; Cli.all] ->
  forall o1 o2, In o1 (Commander.cmdOptions c) -> In o2 (Commander.cmdOptions c) ->
    Commander.attributeName o1 = Commander.attributeName o2 ->
    Commander.long o1 = Commander.long o2.
Proof.
  intros Hc o1 o2 H1 H2 Hne.
  cbn in Hc. intuition subst; cbn in H1, H2; intuition subst;
    first [reflexivity | vm_compute in Hne; discriminate Hne].
Qed.

Lemma declared_defaults (c : Commander.CommandDecl) (opt : Commander.OptionDecl) :
  In c [Cli.program; Cli.pm; Cli.agents; Cli.all] ->
  In opt (Commander.cmdOptions c) ->
  Commander.defaults c !! Commander.attributeName opt = Commander.defaultValue opt.
Proof.
  intros Hc Hopt. cbn in Hc. intuition subst; cbn in Hopt; intuition subst; reflexivity.
Qed.

Lemma decl_declared (c : Cmd) : In (Cli.decl c) [Cli.program; Cli.pm; Cli.agents; Cli.all].
Proof. destruct c; cbn; auto. Qed.

(** X10. An option that the command line does not name, neither as
    [--flag] nor as [--flag=value], has its declared default in the bag the
    action receives: [info] for [--log-level], [true] for
    [--enable-context7], [8080] and [8081] for the ports. *)
Theorem unmentioned_option_keeps_default ae argv c o g :
  Cli.parse ae argv = Cli.Dispatch c o g ->
  (forall opt, In opt (Commander.cmdOptions Cli.program) ->
     Forall (fun a => mentions (Commander.long opt) a = false) argv ->
     g !! Commander.attributeName opt = Commander.defaultValue opt)
  /\ (forall opt, In opt (Commander.cmdOptions (Cli.decl c)) ->
        Forall (fun a => mentions (Commander.long opt) a = false) argv ->
        o !! Commander.attributeName opt = Commander.defaultValue opt).
Proof.
  intros Hparse.
  destruct (parse_inversion _ _ _ _ _ Hparse) as (st & st2 & Hg & -> & Ho & ->).
  split; intros opt Hopt Hargs.
  - rewrite (parseOptions_unmentioned Cli.program opt argv _ st
               (fun o' Hin => declared_names_distinct Cli.program
                                ltac:(cbn; auto) o' opt Hin Hopt) Hargs Hg).
    apply declared_defaults; [cbn; auto|exact Hopt].
  - assert (Forall (fun a => mentions (Commander.long opt) a = false) (Commander.unknown st))
      as Hunk.
    { pose proof (unknown_from_argv _ _ _ _ Hg (List.Forall_nil _)) as Hsub.
      rewrite Stdlib.Lists.List.Forall_forall in Hsub, Hargs |- *.
      intros a Ha. apply Hargs, Hsub, Ha. }
    rewrite (parseOptions_unmentioned (Cli.decl c) opt _ _ st2
               (fun o' Hin => declared_names_distinct (Cli.decl c)
                                (decl_declared c) o' opt Hin Hopt) Hunk Ho).
    apply declared_defaults; [apply decl_declared|exact Hopt].
Qed.

Lemma unmentioned_option_keeps_default_witness :
  exists o g,
    Cli.parse true ["agents"; "--log-level=warn"] = Cli.Dispatch Agents o g
    /\ o !! "port" = Some (VStr "8081").
Proof.
  eexists _, _. split; [reflexivity|].
  refine (proj2 (unmentioned_option_keeps_default true ["agents"; "--log-level=warn"]
                   Agents _ _ eq_refl)
            (Commander.mkOption "--port" true (Some (VStr "8081"))) _ _).
  - left. reflexivity.
  - repeat constructor.
Defined.

Lemma parse_default_logLevel ae argv c o g :
  Cli.parse ae argv = Cli.Dispatch c o g ->
  Forall (fun a => mentions "--log-level" a = false) argv ->
  g !! "logLevel" = Some (VStr "info").
Proof.
  intros Hparse Hargs.
  destruct (parse_inversion _ _ _ _ _ Hparse) as (st & st2 & Hg & -> & _ & _).
  pose (opt := Commander.mkOption "--log-level" true (Some (VStr "info"))).
  assert (In opt (Commander.cmdOptions Cli.program)) as Hopt by (left; reflexivity).
  change (Commander.values st !! Commander.attributeName opt = Some (VStr "info")).
  rewrite (parseOptions_unmentioned Cli.program opt argv _ st
             (fun o' Hin => declared_names_distinct Cli.program
                              ltac:(cbn; auto) o' opt Hin Hopt) Hargs Hg).
  reflexivity.
Qed.

(** X11. Without [--log-level] on the command line the level is [INFO]: the
    logger of the dispatched action and the configuration of its server
    both get [INFO], in every run. *)
Theorem default_level_is_info ae w argv c o g inputs :
  Cli.parse ae argv = Cli.Dispatch c o g ->
  Forall (fun a => mentions "--log-level" a = false) argv ->
  let p := run (main ae w argv) inputs in
  loggers (trace p) = [Logger.mk (loggerName c) INFO]
  /\ map (fun kc => Server.logLevel (snd kc)) (constructions (trace p)) = [INFO].
Proof.
  intros Hparse Hargs. pose proof (parse_default_logLevel _ _ _ _ _ Hparse Hargs) as Hs.
  unfold main. rewrite Hparse.
  launch_cases c Hs w; run_cases inputs; read_trace.
  all: split; reflexivity.
Qed.

Lemma default_level_is_info_witness :
  loggers (trace (run (main true calmWorld ["pm"; "--port"; "1"]) [Received SIGINT]))
  = [Logger.mk "AutoPM-PM" INFO].
Proof.
  refine (proj1 (default_level_is_info true calmWorld ["pm"; "--port"; "1"] PM _ _
                   [Received SIGINT] eq_refl _)).
  repeat constructor.
Defined.

(** ** Console output *)

Lemma consoleLines_app (t1 t2 : list Event) :
  consoleLines (t1 ++ t2) = consoleLines t1 ++ consoleLines t2.
Proof. apply omap_app. Qed.


